(** * validate: field validation helpers and the error aggregate

    A shallow embedding of [validate.go] (package [validate]) and the
    properties of its predicates, its error aggregate and its entry point
    [Struct].

    Go strings are byte sequences; they are modelled by [string] (a sequence
    of [ascii], i.e. of bytes).  Go maps are modelled by stdpp's [gmap]. *)

From Stdlib Require Import Ascii String NArith.
From stdpp Require Import base tactics option list gmap strings sorting.

Local Open Scope string_scope.

(** ** Regular expressions

    The two patterns of the package are compiled by [regexp.MustCompile];
    [Regexp.MatchString] then reports whether the text contains a match.
    The fragment of the RE2 syntax that the patterns use is embedded below:
    literals, byte ranges, concatenation, alternation and repetition.
    Capture groups do not change what is matched and are not represented. *)

Module Regexp.

Inductive regex : Type :=
| Void                       (* matches nothing *)
| Eps                        (* the empty string *)
| Lit (c : ascii)            (* one literal byte *)
| Range (lo hi : ascii)      (* one byte in [lo-hi] *)
| Seq (r1 r2 : regex)        (* r1r2 *)
| Alt (r1 r2 : regex)        (* r1|r2 *)
| Star (r : regex).          (* r* *)

(** [r?], [r+] and [r{n}]. *)
Definition Opt (r : regex) : regex := Alt r Eps.
Definition Plus (r : regex) : regex := Seq r (Star r).
Fixpoint Repeat (n : nat) (r : regex) : regex :=
  match n with
  | O => Eps
  | S n' => Seq r (Repeat n' r)
  end.

(** A literal string of several bytes. *)
Fixpoint Lits (s : string) : regex :=
  match s with
  | "" => Eps
  | String c s' => Seq (Lit c) (Lits s')
  end.

Definition in_range (lo hi c : ascii) : bool :=
  (N_of_ascii lo <=? N_of_ascii c)%N && (N_of_ascii c <=? N_of_ascii hi)%N.

Fixpoint nullable (r : regex) : bool :=
  match r with
  | Void => false
  | Eps => true
  | Lit _ => false
  | Range _ _ => false
  | Seq r1 r2 => nullable r1 && nullable r2
  | Alt r1 r2 => nullable r1 || nullable r2
  | Star _ => true
  end.

(** What remains to be matched after reading the byte [c]. *)
Fixpoint deriv (c : ascii) (r : regex) : regex :=
  match r with
  | Void => Void
  | Eps => Void
  | Lit d => if Ascii.eqb c d then Eps else Void
  | Range lo hi => if in_range lo hi c then Eps else Void
  | Seq r1 r2 =>
      if nullable r1 then Alt (Seq (deriv c r1) r2) (deriv c r2)
      else Seq (deriv c r1) r2
  | Alt r1 r2 => Alt (deriv c r1) (deriv c r2)
  | Star r1 => Seq (deriv c r1) (Star r1)
  end.

(** Whole-text match: the text is consumed byte by byte. *)
Fixpoint matches (r : regex) (s : string) : bool :=
  match s with
  | "" => nullable r
  | String c s' => matches (deriv c r) s'
  end.

(** The language of a regular expression. *)
Inductive Matches : regex → string → Prop :=
| MEps : Matches Eps ""
| MLit c : Matches (Lit c) (String c "")
| MRange lo hi c : in_range lo hi c = true → Matches (Range lo hi) (String c "")
| MSeq r1 r2 s1 s2 :
    Matches r1 s1 → Matches r2 s2 → Matches (Seq r1 r2) (s1 +:+ s2)
| MAltL r1 r2 s : Matches r1 s → Matches (Alt r1 r2) s
| MAltR r1 r2 s : Matches r2 s → Matches (Alt r1 r2) s
| MStarNil r : Matches (Star r) ""
| MStarApp r s1 s2 :
    Matches r s1 → Matches (Star r) s2 → Matches (Star r) (s1 +:+ s2).

(** A compiled pattern: whether it starts with [^], its body, and whether
    it ends with [$].  No flag is set in the patterns of the package, so
    [^] matches only at the beginning of the text and [$] only at its
    end. *)
Record pattern : Type := mkPattern {
  begin_text : bool;
  body : regex;
  end_text : bool;
}.

(** Some prefix of the text matches. *)
Fixpoint matches_prefix (r : regex) (s : string) : bool :=
  nullable r ||
  match s with
  | "" => false
  | String c s' => matches_prefix (deriv c r) s'
  end.

(** A match that starts at the beginning of [s]. *)
Definition match_at (p : pattern) (s : string) : bool :=
  if end_text p then matches (body p) s else matches_prefix (body p) s.

(** A match that starts anywhere in [s]. *)
Fixpoint search (p : pattern) (s : string) : bool :=
  match_at p s ||
  match s with
  | "" => false
  | String _ s' => search p s'
  end.

(** [Regexp.MatchString]: the text contains a match of the pattern. *)
Definition MatchString (p : pattern) (s : string) : bool :=
  if begin_text p then match_at p s else search p s.

End Regexp.

(** ** The functions of package [strings] that the code calls *)

Module Strings.

(** [strings.Split(s, sep)] for a separator of one byte: the pieces of [s]
    between the occurrences of [sep]; there is always at least one piece. *)
Fixpoint Split (s : string) (sep : ascii) : list string :=
  match s with
  | "" => [""]
  | String c s' =>
      if Ascii.eqb c sep then "" :: Split s' sep
      else match Split s' sep with
           | piece :: pieces => String c piece :: pieces
           | [] => [String c ""]
           end
  end.

(** [strings.Join(elems, sep)]. *)
Fixpoint Join (elems : list string) (sep : string) : string :=
  match elems with
  | [] => ""
  | [x] => x
  | x :: rest => x +:+ sep +:+ Join rest sep
  end.

End Strings.

(** ** [unicode/utf8]: coercion to valid UTF-8

    [encoding/json] writes string values "coerced to valid UTF-8, replacing
    invalid bytes with the Unicode replacement rune".  A byte that does not
    start a well-formed encoding is an invalid rune of width one. *)

Module Utf8.

Definition byte_in (lo hi : N) (b : ascii) : bool :=
  (lo <=? N_of_ascii b)%N && (N_of_ascii b <=? hi)%N.

Definition is_cont (b : ascii) : bool := byte_in 128 191 b.

(** Well-formed encodings of two, three and four bytes. *)
Definition two_ok (b0 b1 : ascii) : bool :=
  byte_in 194 223 b0 && is_cont b1.

Definition three_ok (b0 b1 b2 : ascii) : bool :=
  ((byte_in 224 224 b0 && byte_in 160 191 b1)
   || (byte_in 225 236 b0 && is_cont b1)
   || (byte_in 237 237 b0 && byte_in 128 159 b1)
   || (byte_in 238 239 b0 && is_cont b1))
  && is_cont b2.

Definition four_ok (b0 b1 b2 b3 : ascii) : bool :=
  ((byte_in 240 240 b0 && byte_in 144 191 b1)
   || (byte_in 241 243 b0 && is_cont b1)
   || (byte_in 244 244 b0 && byte_in 128 143 b1))
  && is_cont b2 && is_cont b3.

(** U+FFFD in UTF-8: EF BF BD. *)
Definition replacement : string :=
  String (ascii_of_N 239) (String (ascii_of_N 191) (String (ascii_of_N 189) "")).

Fixpoint ToValid (s : string) : string :=
  match s with
  | "" => ""
  | String b0 s1 =>
      if byte_in 0 127 b0 then String b0 (ToValid s1)
      else
        match s1 with
        | String b1 s2 =>
            if two_ok b0 b1 then String b0 (String b1 (ToValid s2))
            else
              match s2 with
              | String b2 s3 =>
                  if three_ok b0 b1 b2
                  then String b0 (String b1 (String b2 (ToValid s3)))
                  else
                    match s3 with
                    | String b3 s4 =>
                        if four_ok b0 b1 b2 b3
                        then String b0 (String b1 (String b2 (String b3 (ToValid s4))))
                        else replacement +:+ ToValid s1
                    | "" => replacement +:+ ToValid s1
                    end
              | "" => replacement +:+ ToValid s1
              end
        | "" => replacement +:+ ToValid s1
        end
  end.

(** A string is valid UTF-8 when the coercion leaves it unchanged. *)
Definition Valid (s : string) : Prop := ToValid s = s.

(** Every byte is below 0x80. *)
Fixpoint is_ascii (s : string) : bool :=
  match s with
  | "" => true
  | String b s' => byte_in 0 127 b && is_ascii s'
  end.

End Utf8.

(** ** [encoding/json] on values of type [map[string][]string]

    The text that [json.Marshal] writes is represented by the JSON value it
    denotes.  Per the package documentation: a nil map encodes as [null];
    a map encodes as an object whose keys are the sorted map keys, "subject
    to the UTF-8 coercion described for string values"; a slice encodes as
    an array; a string encodes as a JSON string coerced to valid UTF-8.
    [json.Unmarshal] into a [map[string][]string] stores the members of an
    object one after the other (a repeated key overwrites), and leaves the
    map nil on [null]. *)

Module Json.

#[warnings="-register-all"]
Inductive value : Type :=
| Null
| Str (s : string)
| Arr (elems : list value)
| Obj (members : list (string * value)).

Definition key_le (a b : string * list string) : Prop := String.le a.1 b.1.

#[global] Instance key_le_dec : RelDecision key_le.
Proof. intros a b. unfold key_le. apply _. Defined.

Definition marshal_string (s : string) : value := Str (Utf8.ToValid s).

Definition marshal_slice (l : list string) : value :=
  Arr (marshal_string <$> l).

Definition marshal_member (kv : string * list string) : string * value :=
  (Utf8.ToValid kv.1, marshal_slice kv.2).

Definition Marshal (m : option (gmap string (list string))) : value :=
  match m with
  | None => Null
  | Some m => Obj (marshal_member <$> merge_sort key_le (map_to_list m))
  end.

(** [None] stands for an [UnmarshalTypeError]. *)
Definition unmarshal_string (v : value) : option string :=
  match v with
  | Str s => Some s
  | Null => Some ""
  | _ => None
  end.

Definition unmarshal_slice (v : value) : option (list string) :=
  match v with
  | Arr elems => mapM unmarshal_string elems
  | Null => Some []
  | _ => None
  end.

Fixpoint unmarshal_members (members : list (string * value))
    (m : gmap string (list string)) : option (gmap string (list string)) :=
  match members with
  | [] => Some m
  | (k, v) :: rest =>
      match unmarshal_slice v with
      | Some l => unmarshal_members rest (<[k := l]> m)
      | None => None
      end
  end.

Definition Unmarshal (v : value) : option (option (gmap string (list string))) :=
  match v with
  | Null => Some None
  | Obj members => Some <$> unmarshal_members members ∅
  | _ => None
  end.

End Json.

(** ** [time.LoadLocation]

    The names [""] and ["UTC"] give UTC and ["Local"] gives Local; a name
    that holds two dots in a row or starts with a slash or a backslash is
    refused as an invalid location name; any other name is looked up in the
    IANA time zone database of the machine.  The database is a parameter. *)

Module Time.

Inductive Location : Type :=
| UTC
| Local
| Zone (name : string).

Fixpoint containsDotDot (s : string) : bool :=
  match s with
  | String a (String b _ as s') =>
      (Ascii.eqb a "." && Ascii.eqb b ".") || containsDotDot s'
  | _ => false
  end.

Definition starts_with_slash (s : string) : bool :=
  match s with
  | String c _ => Ascii.eqb c "/" || Ascii.eqb c "092"
  | "" => false
  end.

Section LoadLocation.
Variable zoneinfo : string → option Location.

(** [inl loc] is [(loc, nil)]; [inr msg] is [(nil, err)]. *)
Definition LoadLocation (name : string) : Location + string :=
  if bool_decide (name = "" ∨ name = "UTC") then inl UTC
  else if bool_decide (name = "Local") then inl Local
  else if containsDotDot name || starts_with_slash name
  then inr "time: invalid location name"
  else match zoneinfo name with
       | Some loc => inl loc
       | None => inr ("unknown time zone " +:+ name)
       end.
End LoadLocation.

End Time.

(** ** [reflect.Value], as far as the predicates look at it *)

Module Reflect.

(** A value of kind String, or a value of another type (given by the name
    of its type). *)
Inductive Value : Type :=
| StringValue (s : string)
| OtherValue (type_name : string).

(** [Value.String] does not panic on other kinds: it returns
    ["<T Value>"]. *)
Definition String_ (v : Value) : string :=
  match v with
  | StringValue s => s
  | OtherValue t => "<" +:+ t +:+ " Value>"
  end.

End Reflect.

(** ** What the package sees of [validator.v8] *)

Module Validator.

(** The two fields of [validator.FieldError] that the package reads. *)
Record FieldError : Type := mkFieldError {
  NameNamespace : string;
  Tag : string;
}.

(** A [validator.ValidationErrors] is given by the failures in the order
    in which a [range] loop over it visits them; [None] is the nil
    value. *)
Definition ValidationErrors : Type := option (list FieldError).

(** The dynamic type of a non-nil [error] returned by
    the method [Struct] of [validator.Validate]. *)
Inductive Error : Type :=
| Failures (verrs : ValidationErrors)
| OtherError (msg : string).

End Validator.

(** ** Package [validate]

    [NewValidationErrors] returns a pointer to a fresh aggregate and
    [AddError] updates the map of its receiver in place; here a call takes
    the aggregate before and gives the aggregate after.  [init] only
    registers the three predicates with the validator under the names
    phone, timezone and coordinates. *)

Import Regexp.

(** A call either returns or panics. *)
Inductive outcome (A : Type) : Type :=
| Returns (a : A)
| Panics (msg : string).
Arguments Returns {A} a.
Arguments Panics {A} msg.

Definition digit : regex := Range "0" "9".

(** [●], U+25CF, is the three bytes E2 97 8F in the source text; the pattern
    is matched against UTF-8 text, where this member of the class [[-.●]]
    is that byte sequence. *)
Definition bullet : string :=
  String (ascii_of_N 226) (String (ascii_of_N 151) (String (ascii_of_N 143) "")).

(** The class [[-.●]]. *)
Definition dash_dot_bullet : regex :=
  Alt (Lit "-") (Alt (Lit ".") (Lits bullet)).

(** [(\-?\d+)(\.\d+)?], which occurs twice in the coordinate pattern. *)
Definition decimal : regex :=
  Seq (Seq (Opt (Lit "-")) (Plus digit)) (Opt (Seq (Lit ".") (Plus digit))).

(** [^(\-?\d+)(\.\d+)?,(\-?\d+)(\.\d+)?$] *)
Definition validCoordinateRegex : pattern :=
  mkPattern true (Seq decimal (Seq (Lit ",") decimal)) true.

(** [^\(?([0-9]{3})\)?\ [-.●]?([0-9]{3})[-.●]?([0-9]{4})$] *)
Definition validPhoneRegex : pattern :=
  mkPattern true
    (Seq (Opt (Lit "("))
    (Seq (Repeat 3 digit)
    (Seq (Opt (Lit ")"))
    (Seq (Lit " ")
    (Seq (Opt dash_dot_bullet)
    (Seq (Repeat 3 digit)
    (Seq (Opt dash_dot_bullet)
         (Repeat 4 digit))))))))
    true.

(** [ValidationErrors]: the map from field to reasons; [None] is the nil map
    of the zero value [ValidationErrors{}]. *)
Record ValidationErrors : Type := mkValidationErrors {
  errors : option (gmap string (list string));
}.

(** The values of the interface type [error] that occur in the package. *)
Inductive error : Type :=
| errorString (s : string)                    (* made by [errors.New] *)
| ValidationErrorsPtr (e : ValidationErrors). (* a [*ValidationErrors] *)

Definition ErrValidation : error := errorString "validation".

(** The entries of the map; a nil map has none. *)
Definition entries (e : ValidationErrors) : gmap string (list string) :=
  default ∅ (errors e).

(** The second component is the [error] of [json.Marshal] (never set for a
    map from strings to slices of strings). *)
Definition MarshalJSON (e : ValidationErrors) : Json.value * option error :=
  (Json.Marshal (errors e), None).

Definition Len (e : ValidationErrors) : nat := size (entries e).

Definition HasErrors (e : ValidationErrors) : bool := bool_decide (0 < Len e).

(** Reading a nil map is allowed; assigning to an entry of a nil map
    panics. *)
Definition AddError (e : ValidationErrors) (field err : string)
    : outcome ValidationErrors :=
  match errors e with
  | Some m =>
      match m !! field with
      | Some reasons =>
          Returns (mkValidationErrors (Some (<[field := (reasons ++ [err])%list]> m)))
      | None =>
          Returns (mkValidationErrors (Some (<[field := [err]]> m)))
      end
  | None => Panics "assignment to entry in nil map"
  end.

(** The orders in which [for key := range m] may produce the keys of a map:
    the language leaves the order open, and every entry is produced once. *)
Inductive range_order {V : Type} : gmap string V → list string → Prop :=
| range_done : range_order ∅ []
| range_next m k v keys :
    m !! k = Some v →
    range_order (delete k m) keys →
    range_order m (k :: keys).

(** The body of [Error], given the slice [keys] that its loop has built. *)
Definition Error_of_keys (e : ValidationErrors) (keys : list string) : string :=
  if HasErrors e
  then "Validation error on fields: " +:+ Strings.Join keys ", "
  else "".

(** [Error_returns e s]: a call of [e.Error()] may return [s]. *)
Definition Error_returns (e : ValidationErrors) (s : string) : Prop :=
  ∃ keys, range_order (entries e) keys ∧ s = Error_of_keys e keys.

(** [strings.Join(strings.Split(ns, ".")[1:], ".")]; the slice expression
    [[1:]] is in range because [Split] returns at least one piece. *)
Definition trim_base (ns : string) : string :=
  Strings.Join (tail (Strings.Split ns ".")) ".".

(** The loop [for _, err := range verrs] of [NewValidationErrors], started
    on the map [m]: each failure assigns the one-element slice of its tag to
    the entry of its trimmed namespace. *)
Definition merge_in (m : gmap string (list string))
    (l : list Validator.FieldError) : gmap string (list string) :=
  fold_left (λ m err,
    <[trim_base (Validator.NameNamespace err) := [Validator.Tag err]]> m) l m.

Definition NewValidationErrors (verrs : Validator.ValidationErrors)
    : ValidationErrors :=
  let verr := ∅ in
  mkValidationErrors (Some
    match verrs with
    | Some l => merge_in verr l
    | None => verr
    end).

(** The three registered predicates look only at [field.String()]. *)
Definition Phone (field : Reflect.Value) : bool :=
  MatchString validPhoneRegex (Reflect.String_ field).

Definition Timezone (zoneinfo : string → option Time.Location)
    (field : Reflect.Value) : bool :=
  match Time.LoadLocation zoneinfo (Reflect.String_ field) with
  | inl _ => true
  | inr _ => false
  end.

Definition Coordinates (field : Reflect.Value) : bool :=
  if negb (MatchString validCoordinateRegex (Reflect.String_ field))
  then false
  else true.

Section Struct.
(** The instances that can be passed, and [validate.Struct] of the
    validator ([None] is a nil error). *)
Variable Instance_ : Type.
Variable validate_Struct : Instance_ → option Validator.Error.

(** The type assertion [errs.(validator.ValidationErrors)] panics on an
    error of another dynamic type. *)
Definition Struct (i : Instance_) : outcome (option error) :=
  match validate_Struct i with
  | Some errs =>
      match errs with
      | Validator.Failures verrs =>
          Returns (Some (ValidationErrorsPtr (NewValidationErrors verrs)))
      | Validator.OtherError _ => Panics "interface conversion"
      end
  | None => Returns None
  end.
End Struct.


(** ** Vocabulary of the specification

    The shapes of text that the specification describes in words, stated
    directly on strings; they are compared below with what the compiled
    patterns accept. *)

Definition is_digit (c : ascii) : bool := in_range "0" "9" c.

Fixpoint all_digits (s : string) : bool :=
  match s with
  | "" => true
  | String c s' => is_digit c && all_digits s'
  end.

(** Exactly [n] decimal digits. *)
Definition digits (n : nat) (s : string) : Prop :=
  String.length s = n ∧ all_digits s = true.

(** One or more decimal digits. *)
Definition number (s : string) : Prop :=
  s ≠ "" ∧ all_digits s = true.

(** An optionally negative integer part with an optional fractional part. *)
Definition signed_decimal (s : string) : Prop :=
  ∃ sign int frac,
    s = sign +:+ int +:+ frac ∧
    (sign = "" ∨ sign = "-") ∧
    number int ∧
    (frac = "" ∨ ∃ f, frac = "." +:+ f ∧ number f).

(** Two signed decimal numbers separated by a comma. *)
Definition coordinate_pair (s : string) : Prop :=
  ∃ lat lng, s = lat +:+ "," +:+ lng ∧ signed_decimal lat ∧ signed_decimal lng.

(** An optional separator as the specification lists them: nothing, a
    space, a hyphen, a period or a bullet. *)
Definition opt_separator (x : string) : Prop :=
  x = "" ∨ x = " " ∨ x = "-" ∨ x = "." ∨ x = bullet.

(** The phone shape in the words of the specification: an optional
    parenthesized 3-digit area code, an optional separator, 3 digits, an
    optional separator, 4 digits. *)
Definition phone_as_specified (s : string) : Prop :=
  ∃ area sep1 mid sep2 last,
    s = area +:+ sep1 +:+ mid +:+ sep2 +:+ last ∧
    (area = "" ∨ ∃ d, area = "(" +:+ d +:+ ")" ∧ digits 3 d) ∧
    opt_separator sep1 ∧ digits 3 mid ∧
    opt_separator sep2 ∧ digits 4 last.

(** An optional mark of the class [[-.●]]. *)
Definition opt_mark (x : string) : Prop :=
  x = "" ∨ x = "-" ∨ x = "." ∨ x = bullet.

(** The phone shape of the compiled pattern: a 3-digit area code with an
    optional opening and an optional closing parenthesis, a space, an
    optional mark, 3 digits, an optional mark, 4 digits. *)
Definition phone_shape (s : string) : Prop :=
  ∃ open area close mark1 mid mark2 last,
    s = open +:+ area +:+ close +:+ " " +:+ mark1 +:+ mid +:+ mark2 +:+ last ∧
    (open = "" ∨ open = "(") ∧ digits 3 area ∧ (close = "" ∨ close = ")") ∧
    opt_mark mark1 ∧ digits 3 mid ∧
    opt_mark mark2 ∧ digits 4 last.

(** What remains of a dotted path once its first segment and the dot after
    it are removed; nothing remains of a path without a dot. *)
Fixpoint drop_root (path : string) : string :=
  match path with
  | "" => ""
  | String c rest => if Ascii.eqb c "." then rest else drop_root rest
  end.

(** The field path of a failure: its name namespace, relative to the root. *)
Definition field_path (err : Validator.FieldError) : string :=
  drop_root (Validator.NameNamespace err).

(** The aggregates that the public operations produce: construction from
    the output of the validator, then calls of [AddError]. *)
Inductive reachable : ValidationErrors → Prop :=
| reachable_new verrs : reachable (NewValidationErrors verrs)
| reachable_add e field err e' :
    reachable e →
    AddError e field err = Returns e' →
    reachable e'.

(** The object that mirrors a mapping: one member per field, whose value is
    the array of the reasons of that field. *)
Definition mirror_member (kv : string * list string) : string * Json.value :=
  (kv.1, Json.Arr (Json.Str <$> kv.2)).

Definition mirrors (members : list (string * Json.value))
    (m : gmap string (list string)) : Prop :=
  members ≡ₚ mirror_member <$> map_to_list m.

(** Every field path and every reason of the aggregate is valid UTF-8. *)
Definition valid_strings (e : ValidationErrors) : Prop :=
  Forall (λ kv, Utf8.Valid kv.1 ∧ Forall Utf8.Valid kv.2)
         (map_to_list (entries e)).

(** Serialization mirrors the mapping: [MarshalJSON] gives an object whose
    members mirror the entries, and parsing that object back gives the
    same mapping from fields to reasons. *)
Definition serialization_mirrors (e : ValidationErrors) : Prop :=
  (∃ members,
     (MarshalJSON e).1 = Json.Obj members ∧ mirrors members (entries e)) ∧
  (∃ parsed,
     Json.Unmarshal (MarshalJSON e).1 = Some parsed ∧
     default ∅ parsed = entries e).

(** ** Callers and measures used in the further properties *)

(** Sequencing of calls: a panic ends the sequence. *)
Definition outcome_bind {A B : Type} (o : outcome A) (k : A → outcome B)
    : outcome B :=
  match o with
  | Returns a => k a
  | Panics msg => Panics msg
  end.

(** A caller that reports the pairs of a field and a reason one after the
    other with [AddError]. *)
Fixpoint AddErrors (e : ValidationErrors) (calls : list (string * string))
    : outcome ValidationErrors :=
  match calls with
  | [] => Returns e
  | (field, err) :: rest =>
      outcome_bind (AddError e field err) (λ e', AddErrors e' rest)
  end.

(** The reasons reported for [field] in a sequence of calls, in call
    order. *)
Definition reasons_for (field : string) (calls : list (string * string))
    : list string :=
  snd <$> filter (λ call, call.1 = field) calls.

(** The call of [AddError] that reports a failure of the validator. *)
Definition as_call (err : Validator.FieldError) : string * string :=
  (field_path err, Validator.Tag err).

(** The number of occurrences of the byte [c], and of decimal digits. *)
Fixpoint count_byte (c : ascii) (s : string) : nat :=
  match s with
  | "" => 0
  | String d s' => (if Ascii.eqb d c then 1 else 0) + count_byte c s'
  end.

Fixpoint count_digits (s : string) : nat :=
  match s with
  | "" => 0
  | String d s' => (if is_digit d then 1 else 0) + count_digits s'
  end.

(** The bytes that a coordinate pair is written with. *)
Definition coordinate_byte (c : ascii) : bool :=
  is_digit c || Ascii.eqb c "-" || Ascii.eqb c "." || Ascii.eqb c ",".

Fixpoint all_bytes (P : ascii → bool) (s : string) : bool :=
  match s with
  | "" => true
  | String c s' => P c && all_bytes P s'
  end.

(** [t] occurs in [s]. *)
Definition occurs_in (t s : string) : Prop :=
  ∃ before after, s = before +:+ t +:+ after.

(** * Properties

    ** Byte strings *)

Module Str.

(** stdpp keeps [+:+] folded under [simpl]; its two equations. *)
Lemma app_nil_l (s : string) : "" +:+ s = s.
Proof. reflexivity. Qed.

Lemma app_cons (c : ascii) (s t : string) :
  String c s +:+ t = String c (s +:+ t).
Proof. reflexivity. Qed.

Lemma app_nil_r (s : string) : s +:+ "" = s.
Proof. induction s as [|c s IH]; [done | by rewrite app_cons, IH]. Qed.

Lemma app_assoc (s t u : string) : (s +:+ t) +:+ u = s +:+ t +:+ u.
Proof. induction s as [|c s IH]; [done | by rewrite !app_cons, IH]. Qed.

Lemma app_eq_nil (s t : string) : s +:+ t = "" → s = "" ∧ t = "".
Proof. destruct s; [done | discriminate]. Qed.

Lemma length_app (s t : string) :
  String.length (s +:+ t) = String.length s + String.length t.
Proof.
  induction s as [|c s IH]; [done |].
  rewrite app_cons. simpl. by rewrite IH.
Qed.

(** Splitting [String c u] as an append: either the left part is empty or
    it carries the first byte. *)
Lemma cons_eq_app (c : ascii) (u s t : string) :
  String c u = s +:+ t →
  (s = "" ∧ t = String c u) ∨ (∃ s', s = String c s' ∧ u = s' +:+ t).
Proof.
  destruct s as [|d s']; intros H.
  - by left.
  - rewrite app_cons in H. injection H as -> ->. right. by exists s'.
Qed.

End Str.

(** ** The matcher and the language of a pattern *)

Module RegexpFacts.
Import Regexp.

Lemma nullable_Matches (r : regex) : nullable r = true ↔ Matches r "".
Proof.
  split.
  - induction r as [| | | |r1 IH1 r2 IH2|r1 IH1 r2 IH2|r IH]; simpl; intros H;
      try discriminate.
    + constructor.
    + apply andb_true_iff in H as [H1 H2].
      change "" with ("" +:+ ""). constructor; auto.
    + apply orb_true_iff in H as [H|H]; [apply MAltL | apply MAltR]; auto.
    + constructor.
  - intros H. remember "" as s eqn:Hs.
    induction H as [|c|lo hi c Hc|r1 r2 s1 s2 H1 IH1 H2 IH2
                   |r1 r2 s H IH|r1 r2 s H IH|r|r s1 s2 H1 IH1 H2 IH2];
      simpl; try done.
    + apply Str.app_eq_nil in Hs as [-> ->].
      by rewrite IH1, IH2.
    + by rewrite IH.
    + rewrite IH by done. apply orb_true_r.
Qed.

Lemma deriv_sound (c : ascii) (r : regex) (s : string) :
  Matches (deriv c r) s → Matches r (String c s).
Proof.
  revert s.
  induction r as [| |d|lo hi|r1 IH1 r2 IH2|r1 IH1 r2 IH2|r IH]; simpl; intros s H.
  - inversion H.
  - inversion H.
  - destruct (Ascii.eqb_spec c d) as [->|]; inversion H; subst. constructor.
  - destruct (in_range lo hi c) eqn:Hc; inversion H; subst. by constructor.
  - assert (Hseq : Matches (Seq (deriv c r1) r2) s → Matches (Seq r1 r2) (String c s)).
    { intros H'. inversion H' as [| | |? ? s1 s2 Ha Hb| | | |]; subst.
      rewrite <- Str.app_cons. constructor; auto. }
    destruct (nullable r1) eqn:Hn; [|by auto].
    inversion H as [| | | |? ? ? Ha|? ? ? Ha| |]; subst; [by auto|].
    rewrite <- (Str.app_nil_l (String c s)). constructor; [|by auto].
    by apply nullable_Matches.
  - inversion H; subst; [apply MAltL | apply MAltR]; auto.
  - inversion H as [| | |? ? s1 s2 Ha Hb| | | |]; subst.
    rewrite <- Str.app_cons. constructor; auto.
Qed.

Lemma deriv_complete (c : ascii) (r : regex) (s : string) :
  Matches r (String c s) → Matches (deriv c r) s.
Proof.
  intros H. remember (String c s) as t eqn:Ht. revert c s Ht.
  induction H as [|d|lo hi d Hd|r1 r2 s1 s2 H1 IH1 H2 IH2
                 |r1 r2 t H IH|r1 r2 t H IH|r|r s1 s2 H1 IH1 H2 IH2];
    intros c s Ht; simpl.
  - discriminate.
  - injection Ht as <- <-. rewrite Ascii.eqb_refl. constructor.
  - injection Ht as <- <-. rewrite Hd. constructor.
  - symmetry in Ht. apply Str.cons_eq_app in Ht as [[-> ->]|(s1' & -> & ->)].
    + apply nullable_Matches in H1. rewrite H1. apply MAltR. by apply IH2.
    + assert (Matches (Seq (deriv c r1) r2) (s1' +:+ s2))
        by (constructor; auto).
      destruct (nullable r1); [by apply MAltL | done].
  - apply MAltL. by apply IH.
  - apply MAltR. by apply IH.
  - discriminate.
  - symmetry in Ht. apply Str.cons_eq_app in Ht as [[-> ->]|(s1' & -> & ->)].
    + by apply IH2.
    + constructor; auto.
Qed.

(** The matcher decides membership in the language of the pattern. *)
Lemma matches_Matches (r : regex) (s : string) :
  matches r s = true ↔ Matches r s.
Proof.
  revert r. induction s as [|c s IH]; intros r; simpl.
  - apply nullable_Matches.
  - rewrite IH. split; [apply deriv_sound | apply deriv_complete].
Qed.

(** A pattern anchored at both ends matches the whole text. *)
Lemma MatchString_anchored (r : regex) (s : string) :
  MatchString (mkPattern true r true) s = true ↔ Matches r s.
Proof. apply matches_Matches. Qed.

(** Without [$] a match may stop before the end of the text, and without
    [^] it may start after its beginning. *)
Lemma matches_prefix_Matches (r : regex) (s : string) :
  matches_prefix r s = true ↔ ∃ s1 s2, s = s1 +:+ s2 ∧ Matches r s1.
Proof.
  revert r. induction s as [|c s IH]; intros r; simpl;
    rewrite orb_true_iff, nullable_Matches.
  - split.
    + intros [H|?]; [|done]. by exists "", "".
    + intros (s1 & s2 & Hs & H). symmetry in Hs.
      apply Str.app_eq_nil in Hs as [-> _]. by left.
  - rewrite IH. split.
    + intros [H|(s1 & s2 & -> & H)].
      * by exists "", (String c s).
      * exists (String c s1), s2. split; [done | by apply deriv_sound].
    + intros (s1 & s2 & Hs & H).
      apply Str.cons_eq_app in Hs as [[-> _]|(s1' & -> & ->)]; [by left|].
      right. exists s1', s2. split; [done | by apply deriv_complete].
Qed.

Lemma match_at_Matches (p : pattern) (s : string) :
  match_at p s = true ↔
  ∃ s1 s2, s = s1 +:+ s2 ∧ Matches (body p) s1 ∧
    (end_text p = true → s2 = "").
Proof.
  unfold match_at. destruct (end_text p).
  - rewrite matches_Matches. split.
    + intros H. exists s, "". by rewrite Str.app_nil_r.
    + intros (s1 & s2 & -> & H & Hend). by rewrite Hend, Str.app_nil_r.
  - rewrite matches_prefix_Matches. split.
    + intros (s1 & s2 & -> & H). by exists s1, s2.
    + intros (s1 & s2 & -> & H & _). by exists s1, s2.
Qed.

Lemma search_Matches (p : pattern) (s : string) :
  search p s = true ↔
  ∃ s0 s1 s2, s = s0 +:+ s1 +:+ s2 ∧ Matches (body p) s1 ∧
    (end_text p = true → s2 = "").
Proof.
  induction s as [|c s IH]; simpl; rewrite orb_true_iff, match_at_Matches.
  - split.
    + intros [(s1 & s2 & Hs & H)|?]; [|done]. by exists "", s1, s2.
    + intros (s0 & s1 & s2 & Hs & H). left. symmetry in Hs.
      apply Str.app_eq_nil in Hs as [-> Hs]. by exists s1, s2.
  - rewrite IH. split.
    + intros [(s1 & s2 & Hs & H)|(s0 & s1 & s2 & -> & H)].
      * by exists "", s1, s2.
      * by exists (String c s0), s1, s2.
    + intros (s0 & s1 & s2 & Hs & H).
      apply Str.cons_eq_app in Hs as [[-> Hs]|(s0' & -> & ->)].
      * left. by exists s1, s2.
      * right. by exists s0', s1, s2.
Qed.

(** *** Inversion principles for the forms that the patterns use *)

Lemma Matches_Lit (c : ascii) (s : string) :
  Matches (Lit c) s ↔ s = String c "".
Proof. split; [by inversion 1 | intros ->; constructor]. Qed.

Lemma Matches_Seq (r1 r2 : regex) (s : string) :
  Matches (Seq r1 r2) s ↔
  ∃ s1 s2, s = s1 +:+ s2 ∧ Matches r1 s1 ∧ Matches r2 s2.
Proof.
  split.
  - inversion 1; subst; eauto.
  - intros (s1 & s2 & -> & H1 & H2). by constructor.
Qed.

Lemma Matches_Opt (r : regex) (s : string) :
  Matches (Opt r) s ↔ s = "" ∨ Matches r s.
Proof.
  unfold Opt. split.
  - inversion 1 as [| | | |? ? ? Ha|? ? ? Ha| |]; subst; [by right|].
    inversion Ha. by left.
  - intros [->|H]; [apply MAltR; constructor | by apply MAltL].
Qed.

Lemma Matches_Lits (t s : string) : Matches (Lits t) s ↔ s = t.
Proof.
  revert s. induction t as [|c t IH]; intros s; simpl.
  - split; [by inversion 1 | intros ->; constructor].
  - rewrite Matches_Seq. split.
    + intros (s1 & s2 & -> & H1 & H2).
      apply Matches_Lit in H1 as ->. apply IH in H2 as ->. done.
    + intros ->. exists (String c ""), t. repeat split.
      * constructor.
      * by apply IH.
Qed.

Lemma Matches_digit (s : string) :
  Matches digit s ↔ ∃ c, s = String c "" ∧ is_digit c = true.
Proof.
  unfold digit, is_digit. split.
  - inversion 1; subst; eauto.
  - intros (c & -> & Hc). by constructor.
Qed.

Lemma Matches_Repeat_digit (n : nat) (s : string) :
  Matches (Repeat n digit) s ↔ digits n s.
Proof.
  unfold digits. revert s. induction n as [|n IH]; intros s; simpl.
  - split.
    + inversion 1. done.
    + intros [Hl _]. destruct s; [constructor | discriminate].
  - rewrite Matches_Seq. split.
    + intros (s1 & s2 & -> & H1 & H2).
      apply Matches_digit in H1 as (c & -> & Hc). apply IH in H2 as [Hl Hd].
      rewrite Str.app_cons, Str.app_nil_l. simpl. by rewrite Hl, Hc, Hd.
    + intros [Hl Hd]. destruct s as [|c s]; [discriminate|].
      simpl in Hl, Hd. apply andb_true_iff in Hd as [Hc Hd].
      exists (String c ""), s. repeat split.
      * apply Matches_digit; eauto.
      * apply IH. split; [lia | done].
Qed.

Lemma Matches_Star_digit (s : string) :
  Matches (Star digit) s ↔ all_digits s = true.
Proof.
  split.
  - intros H. remember (Star digit) as r eqn:Hr.
    induction H as [| | | | | | |r s1 s2 H1 _ H2 IH2]; try discriminate; [done|].
    injection Hr as ->. apply Matches_digit in H1 as (c & -> & Hc).
    rewrite Str.app_cons, Str.app_nil_l. simpl. by rewrite Hc, IH2.
  - induction s as [|c s IH]; simpl; intros H; [constructor|].
    apply andb_true_iff in H as [Hc Hd].
    change (String c s) with (String c "" +:+ s). constructor; [|by auto].
    apply Matches_digit; eauto.
Qed.

Lemma Matches_Plus_digit (s : string) :
  Matches (Plus digit) s ↔ number s.
Proof.
  unfold Plus, number. rewrite Matches_Seq. split.
  - intros (s1 & s2 & -> & H1 & H2).
    apply Matches_digit in H1 as (c & -> & Hc).
    apply Matches_Star_digit in H2.
    rewrite Str.app_cons, Str.app_nil_l. simpl. by rewrite Hc, H2.
  - intros [Hne Hd]. destruct s as [|c s]; [done|].
    simpl in Hd. apply andb_true_iff in Hd as [Hc Hd].
    exists (String c ""), s. repeat split.
    + apply Matches_digit; eauto.
    + by apply Matches_Star_digit.
Qed.

End RegexpFacts.

(** ** The predicates *)

Section Predicates.
Import Regexp RegexpFacts.

Lemma Matches_decimal (s : string) : Matches decimal s ↔ signed_decimal s.
Proof.
  unfold decimal, signed_decimal. split.
  - intros H.
    apply Matches_Seq in H as (s12 & frac & -> & H12 & Hfrac).
    apply Matches_Seq in H12 as (sign & int & -> & Hsign & Hint).
    apply Matches_Opt in Hsign. apply Matches_Plus_digit in Hint.
    apply Matches_Opt in Hfrac.
    exists sign, int, frac. rewrite Str.app_assoc. split_and!; try done.
    + destruct Hsign as [->|Hsign]; [by left|].
      apply Matches_Lit in Hsign as ->. by right.
    + destruct Hfrac as [->|Hfrac]; [by left|]. right.
      apply Matches_Seq in Hfrac as (dot & f & -> & Hdot & Hf).
      apply Matches_Lit in Hdot as ->. apply Matches_Plus_digit in Hf.
      by exists f.
  - intros (sign & int & frac & -> & Hsign & Hint & Hfrac).
    rewrite <- Str.app_assoc. apply MSeq; [apply MSeq|].
    + apply Matches_Opt. destruct Hsign as [->| ->]; [by left|].
      right. constructor.
    + by apply Matches_Plus_digit.
    + apply Matches_Opt. destruct Hfrac as [->|(f & -> & Hf)]; [by left|].
      right. apply (MSeq _ _ "." f); [constructor|].
      by apply Matches_Plus_digit.
Qed.

Lemma Matches_validCoordinateRegex (s : string) :
  Matches (body validCoordinateRegex) s ↔ coordinate_pair s.
Proof.
  unfold coordinate_pair. cbv [validCoordinateRegex body]. split.
  - intros H.
    apply Matches_Seq in H as (lat & rest & -> & Hlat & Hrest).
    apply Matches_Seq in Hrest as (comma & lng & -> & Hcomma & Hlng).
    apply Matches_Lit in Hcomma as ->.
    exists lat, lng. by rewrite <- !Matches_decimal.
  - intros (lat & lng & -> & Hlat & Hlng).
    apply MSeq; [by apply Matches_decimal|].
    apply (MSeq _ _ "," lng); [constructor | by apply Matches_decimal].
Qed.

Lemma Matches_opt_mark (s : string) :
  Matches (Opt dash_dot_bullet) s ↔ opt_mark s.
Proof.
  unfold opt_mark, dash_dot_bullet. rewrite Matches_Opt. split.
  - intros [->|H]; [by left|]. right.
    inversion H as [| | | |? ? ? Ha|? ? ? Ha| |]; subst.
    + apply Matches_Lit in Ha. by left.
    + inversion Ha as [| | | |? ? ? Hb|? ? ? Hb| |]; subst.
      * apply Matches_Lit in Hb. right. by left.
      * apply (Matches_Lits bullet) in Hb. right. by right.
  - intros [->|[->|[->| ->]]]; [by left|right..].
    + apply MAltL. constructor.
    + apply MAltR, MAltL. constructor.
    + apply MAltR, MAltR. by apply Matches_Lits.
Qed.

Lemma Matches_opt_paren (c : ascii) (s : string) :
  Matches (Opt (Lit c)) s ↔ s = "" ∨ s = String c "".
Proof. by rewrite Matches_Opt, Matches_Lit. Qed.

Lemma Matches_validPhoneRegex (s : string) :
  Matches (body validPhoneRegex) s ↔ phone_shape s.
Proof.
  unfold phone_shape. cbv [validPhoneRegex body]. split.
  - intros H.
    apply Matches_Seq in H as (open & s1 & -> & Hopen & H).
    apply Matches_Seq in H as (area & s2 & -> & Harea & H).
    apply Matches_Seq in H as (close & s3 & -> & Hclose & H).
    apply Matches_Seq in H as (space & s4 & -> & Hspace & H).
    apply Matches_Seq in H as (mark1 & s5 & -> & Hmark1 & H).
    apply Matches_Seq in H as (mid & s6 & -> & Hmid & H).
    apply Matches_Seq in H as (mark2 & last & -> & Hmark2 & Hlast).
    apply Matches_Lit in Hspace as ->.
    apply Matches_opt_paren in Hopen, Hclose.
    apply Matches_opt_mark in Hmark1, Hmark2.
    apply Matches_Repeat_digit in Harea, Hmid, Hlast.
    by exists open, area, close, mark1, mid, mark2, last.
  - intros (open & area & close & mark1 & mid & mark2 & last & -> &
            Hopen & Harea & Hclose & Hmark1 & Hmid & Hmark2 & Hlast).
    apply MSeq; [by apply Matches_opt_paren|].
    apply MSeq; [by apply Matches_Repeat_digit|].
    apply MSeq; [by apply Matches_opt_paren|].
    apply (MSeq _ _ " "); [constructor|].
    apply MSeq; [by apply Matches_opt_mark|].
    apply MSeq; [by apply Matches_Repeat_digit|].
    apply MSeq; [by apply Matches_opt_mark | by apply Matches_Repeat_digit].
Qed.

Lemma Coordinates_MatchString (field : Reflect.Value) :
  Coordinates field = MatchString validCoordinateRegex (Reflect.String_ field).
Proof. unfold Coordinates. by destruct (MatchString _ _). Qed.

(** C3 (as amended): the phone predicate holds of a string exactly when it
    is a 3-digit area code, optionally preceded by an opening and
    optionally followed by a closing parenthesis, then one space, then an
    optional hyphen, period or bullet, 3 digits, an optional hyphen, period
    or bullet, and 4 digits. *)
Theorem Phone_iff_phone_shape (s : string) :
  Phone (Reflect.StringValue s) = true ↔ phone_shape s.
Proof.
  unfold Phone. simpl Reflect.String_. rewrite <- Matches_validPhoneRegex.
  exact (MatchString_anchored (body validPhoneRegex) s).
Qed.

(** C3 (as stated) fails: a parenthesized area code followed at once by
    the next digits has the specified shape, and the phone predicate
    rejects it. *)
Lemma Phone_rejects_specified_shape :
  phone_as_specified "(555)1234567" ∧
  Phone (Reflect.StringValue "(555)1234567") = false.
Proof.
  split; [|reflexivity].
  exists "(555)", "", "123", "", "4567". unfold opt_separator, digits.
  repeat split; try reflexivity; try by left.
  right. exists "555". by repeat split.
Qed.

(** C4: the coordinates predicate holds of a string exactly when it is two
    signed decimal numbers separated by a comma; no range is checked, so
    it holds of 40.7128,-74.0060 and of 200,40, and it fails on
    abc,def. *)
Theorem Coordinates_iff_coordinate_pair :
  (∀ s, Coordinates (Reflect.StringValue s) = true ↔ coordinate_pair s) ∧
  Coordinates (Reflect.StringValue "40.7128,-74.0060") = true ∧
  Coordinates (Reflect.StringValue "200,40") = true ∧
  Coordinates (Reflect.StringValue "abc,def") = false.
Proof.
  split; [|by vm_compute].
  intros s. rewrite Coordinates_MatchString. simpl Reflect.String_.
  rewrite <- Matches_validCoordinateRegex.
  exact (MatchString_anchored (body validCoordinateRegex) s).
Qed.

(** C5: the phone predicate accepts (555) 123-4567 and rejects
    555-1234. *)
Theorem Phone_examples :
  Phone (Reflect.StringValue "(555) 123-4567") = true ∧
  Phone (Reflect.StringValue "555-1234") = false.
Proof. by vm_compute. Qed.

End Predicates.


(** ** [strings.Split] and [strings.Join] *)

Module StringsFacts.
Import Strings.

Lemma Split_cons (c sep : ascii) (s : string) :
  Split (String c s) sep =
  if Ascii.eqb c sep then "" :: Split s sep
  else match Split s sep with
       | piece :: pieces => String c piece :: pieces
       | [] => [String c ""]
       end.
Proof. reflexivity. Qed.

(** [Split] returns at least one piece, so [[1:]] cannot be out of range. *)
Lemma Split_nonempty (s : string) (sep : ascii) : Split s sep ≠ [].
Proof.
  induction s as [|c s IH]; [done|].
  rewrite Split_cons. destruct (Ascii.eqb c sep); [done|].
  by destruct (Split s sep).
Qed.

Lemma Join_cons_cons (x y : string) (rest : list string) (sep : string) :
  Join (x :: y :: rest) sep = x +:+ sep +:+ Join (y :: rest) sep.
Proof. reflexivity. Qed.

(** Joining the pieces with the separator gives the text back. *)
Lemma Join_Split (s : string) (sep : ascii) :
  Join (Split s sep) (String sep "") = s.
Proof.
  induction s as [|c s IH]; [done|].
  rewrite Split_cons. pose proof (Split_nonempty s sep) as Hne.
  destruct (Ascii.eqb_spec c sep) as [->|Hc].
  - destruct (Split s sep) as [|piece pieces]; [done|].
    by rewrite Join_cons_cons, IH.
  - destruct (Split s sep) as [|piece [|piece' pieces]]; [done|..].
    + simpl in *. by rewrite IH.
    + rewrite Join_cons_cons in *. by rewrite Str.app_cons, IH.
Qed.

End StringsFacts.

(** ** The error aggregate *)

Section Aggregate.
Import Strings StringsFacts.

(** Trimming the base namespace removes the first segment of the path. *)
Lemma trim_base_drop_root (ns : string) : trim_base ns = drop_root ns.
Proof.
  unfold trim_base. induction ns as [|c ns IH]; [done|].
  rewrite Split_cons. simpl drop_root.
  destruct (Ascii.eqb_spec c ".") as [->|Hc].
  - simpl tail. apply Join_Split.
  - pose proof (Split_nonempty ns ".") as Hne.
    by destruct (Split ns ".").
Qed.

Lemma merge_in_snoc m l err :
  merge_in m (l ++ [err]) = <[field_path err := [Validator.Tag err]]> (merge_in m l).
Proof.
  unfold merge_in, field_path. rewrite fold_left_app. simpl.
  by rewrite trim_base_drop_root.
Qed.

Lemma errors_NewValidationErrors (l : list Validator.FieldError) :
  errors (NewValidationErrors (Some l)) = Some (merge_in ∅ l).
Proof. reflexivity. Qed.

Lemma merge_in_lookup (l : list Validator.FieldError) (path : string) :
  merge_in ∅ l !! path =
  (λ err, [Validator.Tag err]) <$> last (filter (λ err, field_path err = path) l).
Proof.
  induction l as [|err l IH] using rev_ind; [done|].
  rewrite merge_in_snoc, filter_app, lookup_insert.
  rewrite filter_cons, filter_nil. repeat case_decide; try done.
  - by rewrite last_snoc.
  - by rewrite app_nil_r.
Qed.

Lemma merge_in_dom (l : list Validator.FieldError) :
  dom (merge_in ∅ l) = list_to_set (field_path <$> l).
Proof.
  induction l as [|err l IH] using rev_ind; [apply dom_empty_L|].
  rewrite merge_in_snoc, dom_insert_L, IH, fmap_app, list_to_set_app_L.
  simpl. rewrite union_empty_r_L. apply (comm_L (∪)).
Qed.

(** C1: for a non-nil failure list, the aggregate that [NewValidationErrors]
    builds maps a field path (the failure's path without its root segment)
    to a list of exactly one reason, the rule name of the last failure of
    the list that has this path; a path of no failure is not a key. *)
Theorem NewValidationErrors_keeps_last_rule
    (verrs : list Validator.FieldError) :
  ∃ m, errors (NewValidationErrors (Some verrs)) = Some m ∧
    ∀ path,
      m !! path =
      match last (filter (λ err, field_path err = path) verrs) with
      | Some err => Some [Validator.Tag err]
      | None => None
      end.
Proof.
  exists (merge_in ∅ verrs). split; [done|].
  intros path. rewrite merge_in_lookup. by destruct (last _).
Qed.

End Aggregate.

(** ** Iteration over a map *)

Section RangeOrder.
Context {V : Type}.
Implicit Types (m : gmap string V) (keys : list string).

Lemma range_order_keys m keys :
  range_order m keys → NoDup keys ∧ ∀ k, k ∈ keys ↔ is_Some (m !! k).
Proof.
  induction 1 as [|m k v keys Hk _ [IHnd IHin]].
  - split; [constructor|]. intros k. rewrite lookup_empty, elem_of_nil.
    split; [done | by intros [? ?]].
  - split.
    + constructor; [|done]. rewrite IHin, lookup_delete_eq. by intros [? ?].
    + intros k'. rewrite elem_of_cons, IHin.
      destruct (decide (k' = k)) as [->|Hne].
      * rewrite Hk. split; [eauto | by left].
      * rewrite lookup_delete_ne by done. split; [by intros [?|?] | by right].
Qed.

Lemma keys_range_order m keys :
  NoDup keys → (∀ k, k ∈ keys ↔ is_Some (m !! k)) → range_order m keys.
Proof.
  intros Hnd. revert m. induction Hnd as [|k keys Hk Hnd IH]; intros m Hin.
  - assert (m = ∅) as ->; [|constructor].
    apply map_empty. intros k. apply eq_None_not_Some. rewrite <- Hin.
    apply not_elem_of_nil.
  - destruct (proj1 (Hin k)) as [v Hv]; [by left|].
    apply (range_next m k v); [done|]. apply IH. intros k'.
    destruct (decide (k' = k)) as [->|Hne].
    + rewrite lookup_delete_eq. split; [done | by intros [? ?]].
    + rewrite lookup_delete_ne by done. rewrite <- Hin, elem_of_cons.
      split; [by right | by intros [?|?]].
Qed.

Lemma elem_of_map_keys m k : k ∈ (map_to_list m).*1 ↔ is_Some (m !! k).
Proof.
  rewrite list_elem_of_fmap. split.
  - intros ([k' v] & -> & Hin). apply elem_of_map_to_list in Hin. eauto.
  - intros [v Hv]. exists (k, v). split; [done|]. by apply elem_of_map_to_list.
Qed.

(** The orders of a [range] loop are the permutations of the keys. *)
Lemma range_order_Permutation m keys :
  range_order m keys ↔ keys ≡ₚ (map_to_list m).*1.
Proof.
  split.
  - intros [Hnd Hin]%range_order_keys.
    apply NoDup_Permutation; [done | apply NoDup_fst_map_to_list |].
    intros k. by rewrite Hin, elem_of_map_keys.
  - intros Hperm. apply keys_range_order.
    + rewrite Hperm. apply NoDup_fst_map_to_list.
    + intros k. by rewrite Hperm, elem_of_map_keys.
Qed.

End RangeOrder.

(** ** The methods of the aggregate and the entry point *)

Section Methods.
Import Strings.

Lemma HasErrors_true (e : ValidationErrors) :
  HasErrors e = true ↔ entries e ≠ ∅.
Proof.
  unfold HasErrors, Len. rewrite bool_decide_eq_true.
  rewrite <- map_size_non_empty_iff. lia.
Qed.

Lemma HasErrors_false (e : ValidationErrors) :
  HasErrors e = false ↔ entries e = ∅.
Proof.
  unfold HasErrors, Len. rewrite bool_decide_eq_false.
  rewrite <- map_size_empty_iff. lia.
Qed.

(** C7: when the mapping has at least one entry, [Error] returns the text
    "Validation error on fields: " followed by the keys of the mapping, each
    once and in some order, joined by ", "; when the mapping has no entry it
    returns the empty string; a call always has such a result. *)
Theorem Error_lists_failing_fields (e : ValidationErrors) :
  (∃ s, Error_returns e s) ∧
  ∀ s, Error_returns e s ↔
    ((∃ field reasons, entries e !! field = Some reasons) ∧
     ∃ keys, keys ≡ₚ (map_to_list (entries e)).*1 ∧
       s = "Validation error on fields: " +:+ Join keys ", ") ∨
    ((∀ field, entries e !! field = None) ∧ s = "").
Proof.
  assert (Hiff : ∀ s, Error_returns e s ↔
    ((∃ field reasons, entries e !! field = Some reasons) ∧
     ∃ keys, keys ≡ₚ (map_to_list (entries e)).*1 ∧
       s = "Validation error on fields: " +:+ Join keys ", ") ∨
    ((∀ field, entries e !! field = None) ∧ s = "")).
  { intros s. unfold Error_returns, Error_of_keys.
    destruct (HasErrors e) eqn:Hhas.
    - apply HasErrors_true in Hhas.
      destruct (map_choose _ Hhas) as (field & reasons & Hfield). split.
      + intros (keys & Hkeys & ->). left. split; [by eauto|].
        exists keys. split; [by apply range_order_Permutation | done].
      + intros [[_ (keys & Hkeys & ->)]|[Hnone _]].
        * exists keys. split; [by apply range_order_Permutation | done].
        * by rewrite Hnone in Hfield.
    - apply HasErrors_false in Hhas. split.
      + intros (keys & _ & ->). right. split; [|done].
        intros field. by rewrite Hhas, lookup_empty.
      + intros [[(field & reasons & Hfield) _]|[_ ->]].
        * by rewrite Hhas, lookup_empty in Hfield.
        * exists []. split; [|done]. rewrite Hhas. constructor. }
  split; [|done].
  destruct (decide (entries e = ∅)) as [Hempty|Hsome].
  - exists "". apply Hiff. right. split; [|done].
    intros field. by rewrite Hempty, lookup_empty.
  - destruct (map_choose _ Hsome) as (field & reasons & Hfield).
    eexists. apply Hiff. left. split; [by eauto|]. by eexists.
Qed.

Lemma NewValidationErrors_nonempty (e : ValidationErrors) (m : gmap string (list string)) :
  (∃ verrs, e = NewValidationErrors verrs) →
  errors e = Some m →
  ∀ field reasons, m !! field = Some reasons → reasons ≠ [].
Proof.
  intros [[l|] ->]; simpl; intros [= <-] field reasons.
  - rewrite merge_in_lookup. destruct (last _); simpl; [|done].
    by intros [= <-].
  - by rewrite lookup_empty.
Qed.

(** What [AddError] does to a non-nil map. *)
Lemma AddError_Some (e : ValidationErrors) (m : gmap string (list string))
    (field err : string) :
  errors e = Some m →
  AddError e field err =
  Returns (mkValidationErrors (Some
    (<[field := match m !! field with
                | Some reasons => (reasons ++ [err])%list
                | None => [err]
                end]> m))).
Proof. unfold AddError. intros ->. by destruct (m !! field). Qed.

Lemma AddError_Returns (e e' : ValidationErrors) (field err : string) :
  AddError e field err = Returns e' →
  ∃ m, errors e = Some m ∧
    errors e' = Some (<[field := match m !! field with
                                 | Some reasons => (reasons ++ [err])%list
                                 | None => [err]
                                 end]> m).
Proof.
  destruct (errors e) as [m|] eqn:Hm.
  - rewrite (AddError_Some e m) by done. intros [= <-]. by exists m.
  - unfold AddError. by rewrite Hm.
Qed.

Lemma reachable_nonempty (e : ValidationErrors) :
  reachable e →
  ∃ m, errors e = Some m ∧
    ∀ field reasons, m !! field = Some reasons → reasons ≠ [].
Proof.
  induction 1 as [verrs|e field err e' _ (m & Hm & IH) Hadd].
  - eexists. split; [done|].
    eapply NewValidationErrors_nonempty; [by eexists | done].
  - apply AddError_Returns in Hadd as (m' & Hm' & Hadd).
    rewrite Hm in Hm'. injection Hm' as <-.
    eexists. split; [done|]. intros field' reasons.
    rewrite lookup_insert. case_decide as Hf; [|by apply IH].
    intros [= <-]. destruct (m !! field); [|done].
    by destruct l.
Qed.

(** C8: in an aggregate reached by construction from the validator's output
    followed by calls of [AddError], each field key occurs once and the
    reason list of each key is non-empty; a further [AddError] returns an
    aggregate, again reachable, in which the reason is appended to the list
    of the field when the field is a key, and is the one element of a new
    list when it is not. *)
Theorem reachable_aggregate_invariant (e : ValidationErrors)
    (Hreach : reachable e) :
  ∃ m, errors e = Some m ∧
    NoDup (map_to_list m).*1 ∧
    (∀ field reasons, m !! field = Some reasons → reasons ≠ []) ∧
    ∀ field err, ∃ e',
      AddError e field err = Returns e' ∧
      reachable e' ∧
      errors e' = Some (<[field := match m !! field with
                                   | Some reasons => (reasons ++ [err])%list
                                   | None => [err]
                                   end]> m).
Proof.
  destruct (reachable_nonempty e Hreach) as (m & Hm & Hne).
  exists m. split_and!; [done | apply NoDup_fst_map_to_list | done |].
  intros field err. eexists. split; [by apply AddError_Some|].
  split; [|done].
  eapply reachable_add; [done | by apply AddError_Some].
Qed.

(** The witness of C8: an aggregate built from two failures of one field. *)
Lemma reachable_aggregate_invariant_witness :
  ∃ m, errors (NewValidationErrors (Some
         [Validator.mkFieldError "User.email" "required";
          Validator.mkFieldError "User.email" "email"])) = Some m ∧
    NoDup (map_to_list m).*1 ∧
    (∀ field reasons, m !! field = Some reasons → reasons ≠ []) ∧
    ∀ field err, ∃ e',
      AddError (NewValidationErrors (Some
         [Validator.mkFieldError "User.email" "required";
          Validator.mkFieldError "User.email" "email"])) field err = Returns e' ∧
      reachable e' ∧
      errors e' = Some (<[field := match m !! field with
                                   | Some reasons => (reasons ++ [err])%list
                                   | None => [err]
                                   end]> m).
Proof.
  apply (reachable_aggregate_invariant
           (NewValidationErrors (Some
              [Validator.mkFieldError "User.email" "required";
               Validator.mkFieldError "User.email" "email"]))).
  apply reachable_new.
Defined.

End Methods.

(** ** The entry point *)

Section EntryPoint.
Variable Instance_ : Type.
Variable validate_Struct : Instance_ → option Validator.Error.

Lemma Len_NewValidationErrors (verrs : list Validator.FieldError) :
  Len (NewValidationErrors (Some verrs)) =
  size (list_to_set (field_path <$> verrs) : gset string).
Proof.
  unfold Len, entries. simpl. by rewrite <- merge_in_dom, size_dom.
Qed.

Lemma HasErrors_NewValidationErrors (verrs : list Validator.FieldError) :
  verrs ≠ [] → HasErrors (NewValidationErrors (Some verrs)) = true.
Proof.
  intros Hne. apply HasErrors_true. unfold entries. simpl.
  destruct verrs as [|err verrs _] using rev_ind; [done|].
  rewrite merge_in_snoc. apply insert_non_empty.
Qed.

(** C2: when the validator reports no violation (a nil error), [Struct]
    returns nil; when it reports the non-empty collection [verrs] of
    failures, [Struct] returns an aggregate on which [HasErrors] is true
    and whose [Len] is the number of distinct field paths that failed. *)
Theorem Struct_nil_or_aggregate (i : Instance_) :
  (validate_Struct i = None →
   Struct Instance_ validate_Struct i = Returns None) ∧
  (∀ verrs,
     validate_Struct i = Some (Validator.Failures (Some verrs)) →
     verrs ≠ [] →
     ∃ e, Struct Instance_ validate_Struct i = Returns (Some (ValidationErrorsPtr e)) ∧
       HasErrors e = true ∧
       Len e = size (list_to_set (field_path <$> verrs) : gset string)).
Proof.
  unfold Struct. split.
  - by intros ->.
  - intros verrs -> Hne. eexists. split; [done|]. split.
    + by apply HasErrors_NewValidationErrors.
    + apply Len_NewValidationErrors.
Qed.

(** C10: [Struct] returns nil, or returns a [*ValidationErrors], or does
    not return at all (the type assertion panics); it never returns the
    sentinel [ErrValidation], and no other operation of the package that has
    an [error] result returns it either. *)
Theorem Struct_never_ErrValidation (i : Instance_) :
  (Struct Instance_ validate_Struct i = Returns None ∨
   (∃ e, Struct Instance_ validate_Struct i = Returns (Some (ValidationErrorsPtr e))) ∨
   (∃ msg, Struct Instance_ validate_Struct i = Panics msg)) ∧
  Struct Instance_ validate_Struct i ≠ Returns (Some ErrValidation) ∧
  (∀ e, (MarshalJSON e).2 ≠ Some ErrValidation).
Proof.
  unfold Struct.
  destruct (validate_Struct i) as [[verrs|msg]|]; split_and!; try done; eauto.
Qed.

(** [Struct] returns whenever the validator gives nil or its own collection
    of failures. *)
Lemma Struct_returns (i : Instance_) :
  (validate_Struct i = None ∨
   ∃ verrs, validate_Struct i = Some (Validator.Failures verrs)) →
  ∃ r, Struct Instance_ validate_Struct i = Returns r.
Proof.
  unfold Struct. intros [->|[verrs ->]]; by eexists.
Qed.

End EntryPoint.

(** The witness of C2: one instance without violation and one with two
    failures of two fields. *)
Lemma Struct_nil_or_aggregate_witness :
  Struct bool (λ b : bool,
      if b then None
      else Some (Validator.Failures (Some
             [Validator.mkFieldError "User.email" "required";
              Validator.mkFieldError "User.phone" "phone"]))) true
    = Returns None ∧
  ∃ e, Struct bool (λ b : bool,
      if b then None
      else Some (Validator.Failures (Some
             [Validator.mkFieldError "User.email" "required";
              Validator.mkFieldError "User.phone" "phone"]))) false
      = Returns (Some (ValidationErrorsPtr e)) ∧
    HasErrors e = true ∧ Len e = 2.
Proof.
  split.
  - apply (Struct_nil_or_aggregate bool _ true). reflexivity.
  - apply (proj2 (Struct_nil_or_aggregate bool _ false)
             [Validator.mkFieldError "User.email" "required";
              Validator.mkFieldError "User.phone" "phone"]);
      [reflexivity | discriminate].
Defined.

(** ** The timezone predicate *)

(** C9: the timezone predicate accepts the empty string, whatever the time
    zone database holds, because [time.LoadLocation] resolves the empty
    name to UTC without an error. *)
Theorem Timezone_accepts_empty_string (zoneinfo : string → option Time.Location) :
  Time.LoadLocation zoneinfo "" = inl Time.UTC ∧
  Timezone zoneinfo (Reflect.StringValue "") = true.
Proof. split; reflexivity. Qed.

(** ** Serialization *)

Section Serialization.
Import Json.

Lemma unmarshal_slice_mirror (l : list string) :
  unmarshal_slice (Arr (Str <$> l)) = Some l.
Proof. simpl. by apply mapM_fmap_Some. Qed.

(** Parsing the members that mirror a list of entries stores the entries
    one after the other. *)
Lemma unmarshal_members_mirror (entries : list (string * list string))
    (m : gmap string (list string)) :
  unmarshal_members (mirror_member <$> entries) m =
  Some (fold_left (λ m kv, <[kv.1 := kv.2]> m) entries m).
Proof.
  revert m. induction entries as [|[k l] entries IH]; intros m; [done|].
  rewrite fmap_cons.
  change (unmarshal_members (mirror_member (k, l) :: ?rest) m)
    with (match unmarshal_slice (Arr (Str <$> l)) with
          | Some l' => unmarshal_members rest (<[k := l']> m)
          | None => None
          end).
  rewrite unmarshal_slice_mirror. apply IH.
Qed.

Lemma fold_left_insert_list_to_map (entries : list (string * list string)) :
  NoDup entries.*1 →
  fold_left (λ m kv, <[kv.1 := kv.2]> m) entries (∅ : gmap string (list string))
  = list_to_map entries.
Proof.
  induction entries as [|[k l] entries IH] using rev_ind; intros Hnd; [done|].
  rewrite fmap_app in Hnd. apply NoDup_app in Hnd as (Hnd & Hk & _).
  rewrite fold_left_app. simpl. rewrite IH by done.
  symmetry. apply list_to_map_snoc. intros Hin. apply (Hk k Hin). by left.
Qed.

(** ASCII text and the bullet are valid UTF-8; a byte 0xFF is not. *)
Lemma Valid_ascii (s : string) : Utf8.is_ascii s = true → Utf8.Valid s.
Proof.
  unfold Utf8.Valid. induction s as [|b s IH]; simpl; [done|].
  intros [Hb Hs]%andb_true_iff. by rewrite Hb, IH.
Qed.

Lemma Valid_bullet : Utf8.Valid bullet.
Proof. reflexivity. Qed.

Lemma ToValid_invalid_byte :
  Utf8.ToValid (String (ascii_of_N 255) "") = Utf8.replacement.
Proof. reflexivity. Qed.

(** The zero value of the aggregate has a nil map: it is written as
    [null], and [AddError] panics on it. *)
Lemma MarshalJSON_zero_value :
  (MarshalJSON (mkValidationErrors None)).1 = Null ∧ Unmarshal Null = Some None.
Proof. by split. Qed.

Lemma AddError_zero_value (field err : string) :
  ∃ msg, AddError (mkValidationErrors None) field err = Panics msg.
Proof. by eexists. Qed.

(** On valid UTF-8 the coercion does nothing, and a member is written as
    it stands. *)
Lemma marshal_member_valid (kv : string * list string) :
  Utf8.Valid kv.1 → Forall Utf8.Valid kv.2 →
  marshal_member kv = mirror_member kv.
Proof.
  unfold marshal_member, mirror_member, marshal_slice. intros -> Hl.
  do 2 f_equal. apply Forall_fmap_ext_1.
  eapply Forall_impl; [done|]. intros s Hs. unfold marshal_string. by rewrite Hs.
Qed.

Lemma Marshal_valid (m : gmap string (list string)) :
  Forall (λ kv, Utf8.Valid kv.1 ∧ Forall Utf8.Valid kv.2) (map_to_list m) →
  Marshal (Some m) = Obj (mirror_member <$> merge_sort key_le (map_to_list m)).
Proof.
  intros Hvalid. simpl. f_equal. apply Forall_fmap_ext_1.
  rewrite merge_sort_Permutation.
  eapply Forall_impl; [done|]. intros kv [Hk Hl]. by apply marshal_member_valid.
Qed.

Lemma Unmarshal_sorted_mirror (m : gmap string (list string)) :
  Unmarshal (Obj (mirror_member <$> merge_sort key_le (map_to_list m))) =
  Some (Some m).
Proof.
  simpl. rewrite unmarshal_members_mirror. simpl. do 2 f_equal.
  rewrite fold_left_insert_list_to_map.
  - rewrite <- (list_to_map_to_list m) at 2.
    apply list_to_map_proper; [|apply merge_sort_Permutation].
    rewrite merge_sort_Permutation. apply NoDup_fst_map_to_list.
  - rewrite merge_sort_Permutation. apply NoDup_fst_map_to_list.
Qed.

(** C6 (as amended): when the map of the aggregate is not nil and its
    field paths and reasons are valid UTF-8, [MarshalJSON] gives an object
    whose keys are the field paths and whose values are the arrays of the
    reasons, and parsing it back gives the same mapping. *)
Theorem MarshalJSON_mirrors_valid_utf8 (e : ValidationErrors)
    (Hmap : is_Some (errors e)) (Hvalid : valid_strings e) :
  serialization_mirrors e.
Proof.
  destruct e as [[m|]]; [|by destruct Hmap as [? ?]].
  unfold serialization_mirrors, valid_strings, MarshalJSON, entries in *.
  cbn [errors fst from_option] in *. rewrite Marshal_valid by done. split.
  - eexists. split; [done|]. unfold mirrors.
    by rewrite merge_sort_Permutation.
  - exists (Some m). split; [|done]. apply Unmarshal_sorted_mirror.
Qed.

(** The witness of C6 (as amended): the aggregate of two failures. *)
Lemma MarshalJSON_mirrors_valid_utf8_witness :
  serialization_mirrors (NewValidationErrors (Some
    [Validator.mkFieldError "User.email" "required";
     Validator.mkFieldError "User.phone" "phone"])).
Proof.
  apply MarshalJSON_mirrors_valid_utf8.
  - by eexists.
  - unfold valid_strings. vm_compute map_to_list.
    repeat constructor.
Defined.

(** C6 (as stated) fails: a field name that is not valid UTF-8 is written
    as the replacement rune, so the keys of the object are not the field
    paths and the mapping parsed back is another one. *)
Lemma MarshalJSON_does_not_mirror_invalid_utf8 :
  AddError (NewValidationErrors None) (String (ascii_of_N 255) "") "required"
    = Returns (mkValidationErrors
                 (Some {[String (ascii_of_N 255) "" := ["required"]]})) ∧
  ¬ serialization_mirrors (mkValidationErrors
                 (Some {[String (ascii_of_N 255) "" := ["required"]]})).
Proof.
  split; [reflexivity|].
  intros [_ (parsed & Hparsed & Hsame)].
  vm_compute in Hparsed. injection Hparsed as <-.
  apply (f_equal (λ m, m !! String (ascii_of_N 255) "")) in Hsame.
  vm_compute in Hsame. discriminate.
Qed.

End Serialization.

(** * Further properties

    ** [AddError] *)

Section AddErrorFacts.

(** X1: After [AddError] returns, the aggregate has errors; its length is one
    more when the field was not a key and unchanged when it was. *)
Theorem AddError_grows (e e' : ValidationErrors) (field err : string)
    (Hadd : AddError e field err = Returns e') :
  HasErrors e' = true ∧
  Len e' = if decide (is_Some (entries e !! field)) then Len e else S (Len e).
Proof.
  apply AddError_Returns in Hadd as (m & Hm & Hm').
  split.
  - apply HasErrors_true. unfold entries. rewrite Hm'. apply insert_non_empty.
  - unfold Len, entries. rewrite Hm, Hm'. simpl.
    destruct (m !! field) as [reasons|] eqn:Hf.
    + rewrite decide_True by eauto. by apply map_size_insert_Some.
    + rewrite decide_False by (by intros [? ?]). by apply map_size_insert_None.
Qed.

Lemma AddError_grows_witness :
  HasErrors (mkValidationErrors (Some {["email" := ["required"; "email"]]})) = true ∧
  Len (mkValidationErrors (Some {["email" := ["required"; "email"]]})) = 1.
Proof.
  exact (AddError_grows
           (mkValidationErrors (Some {["email" := ["required"]]}))
           (mkValidationErrors (Some {["email" := ["required"; "email"]]}))
           "email" "email" eq_refl).
Defined.

(** X3: Reports on two different fields can be made in either order. *)
Theorem AddError_commutes (e : ValidationErrors) (f1 r1 f2 r2 : string)
    (Hne : f1 ≠ f2) :
  outcome_bind (AddError e f1 r1) (λ e1, AddError e1 f2 r2) =
  outcome_bind (AddError e f2 r2) (λ e2, AddError e2 f1 r1).
Proof.
  destruct e as [[m|]]; [|done].
  rewrite (AddError_Some _ m f1 r1), (AddError_Some _ m f2 r2) by done.
  simpl. rewrite (AddError_Some _ _ f2 r2), (AddError_Some _ _ f1 r1) by done.
  rewrite !lookup_insert_ne by done. do 3 f_equal.
  by apply insert_insert_ne.
Qed.

Lemma AddError_commutes_witness :
  outcome_bind (AddError (NewValidationErrors None) "email" "required")
               (λ e1, AddError e1 "phone" "phone") =
  outcome_bind (AddError (NewValidationErrors None) "phone" "phone")
               (λ e2, AddError e2 "email" "required").
Proof. apply AddError_commutes. discriminate. Defined.

Lemma reasons_for_cons (field f r : string) (calls : list (string * string)) :
  reasons_for field ((f, r) :: calls) =
  if decide (f = field) then r :: reasons_for field calls
  else reasons_for field calls.
Proof.
  unfold reasons_for. rewrite filter_cons. simpl. by case_decide.
Qed.

Lemma AddErrors_lookup (e : ValidationErrors)
    (m : gmap string (list string)) (calls : list (string * string))
    (Hm : errors e = Some m) :
  ∃ m', AddErrors e calls = Returns (mkValidationErrors (Some m')) ∧
    ∀ field,
      m' !! field =
      match m !! field, reasons_for field calls with
      | Some old, rs => Some (old ++ rs)%list
      | None, [] => None
      | None, rs => Some rs
      end.
Proof.
  revert e m Hm. induction calls as [|[f r] calls IH]; intros e m Hm.
  - exists m. destruct e as [o]. simpl in Hm. subst o. split; [done|].
    intros field. unfold reasons_for. simpl.
    destruct (m !! field); by rewrite ?app_nil_r.
  - simpl. rewrite (AddError_Some e m f r Hm). simpl.
    set (m1 := <[f := match m !! f with
                      | Some reasons => (reasons ++ [r])%list
                      | None => [r]
                      end]> m).
    destruct (IH (mkValidationErrors (Some m1)) m1 eq_refl)
      as (m' & Hcalls & Hlookup).
    exists m'. split; [exact Hcalls|].
    intros field. rewrite Hlookup, reasons_for_cons. unfold m1.
    rewrite lookup_insert.
    destruct (decide (f = field)) as [->|Hne]; [|done].
    destruct (m !! field); [by rewrite <- app_assoc | done].
Qed.

(** X4: A sequence of reports on an aggregate with a non-nil map returns, and
    leaves for each field the reasons it had followed by the reasons
    reported for it, in call order; nothing is lost or reordered. *)
Theorem AddErrors_accumulates (e : ValidationErrors)
    (m : gmap string (list string)) (calls : list (string * string))
    (Hm : errors e = Some m) :
  ∃ m', AddErrors e calls = Returns (mkValidationErrors (Some m')) ∧
    ∀ field,
      m' !! field =
      match m !! field, reasons_for field calls with
      | Some old, rs => Some (old ++ rs)%list
      | None, [] => None
      | None, rs => Some rs
      end.
Proof. by apply AddErrors_lookup. Qed.

Lemma AddErrors_accumulates_witness :
  ∃ m', AddErrors (NewValidationErrors None)
          [("email", "required"); ("phone", "phone"); ("email", "email")]
        = Returns (mkValidationErrors (Some m')) ∧
    ∀ field,
      m' !! field =
      match (∅ : gmap string (list string)) !! field,
            reasons_for field
              [("email", "required"); ("phone", "phone"); ("email", "email")] with
      | Some old, rs => Some (old ++ rs)%list
      | None, [] => None
      | None, rs => Some rs
      end.
Proof.
  apply (AddErrors_accumulates (NewValidationErrors None) ∅). reflexivity.
Defined.

End AddErrorFacts.

(** ** [NewValidationErrors] *)

Section NewValidationErrorsFacts.

Lemma size_list_to_set_bound (l : list string) :
  (size (list_to_set l : gset string) ≤ length l)%nat ∧
  (size (list_to_set l : gset string) = length l → NoDup l).
Proof.
  induction l as [|x l [IHle IHnd]].
  - split; [by vm_compute | constructor].
  - rewrite list_to_set_cons. simpl length.
    destruct (decide (x ∈ l)) as [Hin|Hin].
    + rewrite subseteq_union_1_L
        by (apply singleton_subseteq_l; by apply elem_of_list_to_set).
      split; lia.
    + rewrite size_union, size_singleton
        by (apply disjoint_singleton_l; by rewrite elem_of_list_to_set).
      split; [lia|]. intros Hsize. constructor; [done|]. apply IHnd. lia.
Qed.

(** X5: The aggregate has at most as many fields as there are failures, and as
    many exactly when no two failures have the same field path. *)
Theorem NewValidationErrors_Len_bound (verrs : list Validator.FieldError) :
  (Len (NewValidationErrors (Some verrs)) ≤ length verrs)%nat ∧
  (Len (NewValidationErrors (Some verrs)) = length verrs ↔
   NoDup (field_path <$> verrs)).
Proof.
  rewrite Len_NewValidationErrors.
  destruct (size_list_to_set_bound (field_path <$> verrs)) as [Hle Hnd].
  rewrite length_fmap in Hle, Hnd. split; [done|]. split; [done|].
  intros Hno. rewrite size_list_to_set by done. apply length_fmap.
Qed.

Lemma filter_path_length (l : list Validator.FieldError) (path : string) :
  NoDup (field_path <$> l) →
  (length (filter (λ err, field_path err = path) l) ≤ 1)%nat.
Proof.
  induction l as [|x l IH]; [simpl; lia|].
  rewrite fmap_cons, NoDup_cons, filter_cons. intros [Hx Hnd].
  case_decide as Hp; [|by apply IH].
  destruct (filter (λ err, field_path err = path) l) as [|y k] eqn:Hf; [done|].
  assert (y ∈ filter (λ err, field_path err = path) l) as Hy
    by (rewrite Hf; by left).
  apply list_elem_of_filter in Hy as [Hpy Hy]. destruct Hx.
  rewrite Hp, <- Hpy. by apply list_elem_of_fmap_2.
Qed.

Lemma path_NoDup (l : list Validator.FieldError) :
  (∀ path, (length (filter (λ err, field_path err = path) l) ≤ 1)%nat) →
  NoDup (field_path <$> l).
Proof.
  induction l as [|x l IH]; intros Hone; [constructor|].
  rewrite fmap_cons. constructor.
  - intros (y & Hxy & Hy)%list_elem_of_fmap.
    specialize (Hone (field_path x)). rewrite filter_cons in Hone.
    rewrite decide_True in Hone by done. simpl in Hone.
    assert (y ∈ filter (λ err, field_path err = field_path x) l) as Hin
      by (by apply list_elem_of_filter).
    destruct (filter _ l); [by apply elem_of_nil in Hin | simpl in Hone; lia].
  - apply IH. intros path. specialize (Hone path).
    rewrite filter_cons in Hone. case_decide; simpl in Hone; lia.
Qed.

Lemma short_Permutation {A : Type} (l k : list A) :
  (length l ≤ 1)%nat → l ≡ₚ k → l = k.
Proof.
  destruct l as [|x [|y l]]; simpl; intros Hlen Hperm; [| |lia].
  - by apply Permutation_nil_l in Hperm.
  - by apply Permutation_singleton_l in Hperm.
Qed.

(** X6: The order in which the failures are visited does not change which
    fields the aggregate has, and does not change the aggregate at all when
    no two failures have the same field path. *)
Theorem NewValidationErrors_visit_order (l l' : list Validator.FieldError)
    (Hperm : l ≡ₚ l') :
  dom (entries (NewValidationErrors (Some l))) =
  dom (entries (NewValidationErrors (Some l'))) ∧
  (NoDup (field_path <$> l) →
   NewValidationErrors (Some l) = NewValidationErrors (Some l')).
Proof.
  unfold NewValidationErrors, entries. simpl. split.
  - rewrite !merge_in_dom. apply set_eq. intros path.
    by rewrite !elem_of_list_to_set, Hperm.
  - intros Hnd. do 2 f_equal. apply map_eq. intros path.
    rewrite !merge_in_lookup. do 2 f_equal.
    apply short_Permutation; [by apply filter_path_length|].
    by rewrite Hperm.
Qed.

Lemma NewValidationErrors_visit_order_witness :
  NewValidationErrors (Some
    [Validator.mkFieldError "User.email" "required";
     Validator.mkFieldError "User.phone" "phone"]) =
  NewValidationErrors (Some
    [Validator.mkFieldError "User.phone" "phone";
     Validator.mkFieldError "User.email" "required"]).
Proof.
  apply NewValidationErrors_visit_order.
  - apply perm_swap.
  - by apply (bool_decide_unpack _).
Defined.

Lemma reasons_for_as_call (l : list Validator.FieldError) (path : string) :
  reasons_for path (as_call <$> l) =
  Validator.Tag <$> filter (λ err, field_path err = path) l.
Proof.
  induction l as [|x l IH]; [done|].
  rewrite fmap_cons. unfold as_call at 1. rewrite reasons_for_cons, filter_cons.
  case_decide; [rewrite fmap_cons|]; by rewrite IH.
Qed.

(** X7: Reporting the failures one by one with [AddError] gives the aggregate of
    [NewValidationErrors] exactly when no two failures have the same field
    path: with a repeated path, [AddError] keeps every rule and
    [NewValidationErrors] the last one. *)
Theorem NewValidationErrors_as_AddErrors (l : list Validator.FieldError) :
  AddErrors (NewValidationErrors None) (as_call <$> l)
    = Returns (NewValidationErrors (Some l)) ↔
  NoDup (field_path <$> l).
Proof.
  destruct (AddErrors_lookup (NewValidationErrors None) ∅ (as_call <$> l) eq_refl)
    as (m' & -> & Hlookup).
  assert (Hm' : ∀ path, m' !! path =
            match Validator.Tag <$> filter (λ err, field_path err = path) l with
            | [] => None
            | rs => Some rs
            end).
  { intros path. by rewrite Hlookup, lookup_empty, reasons_for_as_call. }
  clear Hlookup. split.
  - intros [= Heq]. apply path_NoDup. intros path.
    specialize (Hm' path). rewrite Heq, merge_in_lookup in Hm'.
    destruct (filter _ l) as [|x [|y k]] eqn:Hf; simpl; [lia | lia |].
    rewrite !fmap_cons in Hm'. destruct (last _); simpl in Hm'; done.
  - intros Hnd. unfold NewValidationErrors. do 3 f_equal. apply map_eq.
    intros path. rewrite Hm', merge_in_lookup.
    pose proof (filter_path_length l path Hnd) as Hlen.
    destruct (filter _ l) as [|x [|y k]]; simpl in *; [done | done | lia].
Qed.

End NewValidationErrorsFacts.

(** ** Trimming the base namespace *)

Section TrimBaseFacts.

Lemma drop_root_app (root rest : string) :
  count_byte "." root = 0 →
  drop_root (root +:+ "." +:+ rest) = rest ∧ drop_root root = "".
Proof.
  induction root as [|c root IH]; [done|].
  rewrite Str.app_cons. simpl.
  destruct (Ascii.eqb c "."); [done|]. simpl. apply IH.
Qed.

(** X8: When the first segment of a namespace holds no dot, trimming gives what
    follows its first dot; a namespace that holds no dot at all is trimmed
    to the empty key. *)
Theorem trim_base_relative (root rest : string)
    (Hroot : count_byte "." root = 0) :
  trim_base (root +:+ "." +:+ rest) = rest ∧ trim_base root = "".
Proof. rewrite !trim_base_drop_root. by apply drop_root_app. Qed.

Lemma trim_base_relative_witness :
  trim_base ("User" +:+ "." +:+ "address.city") = "address.city" ∧
  trim_base "User" = "".
Proof. apply trim_base_relative. reflexivity. Defined.

End TrimBaseFacts.

(** ** The message of [Error] *)

Section ErrorFacts.
Import Strings.

Lemma Error_returns_keys (e : ValidationErrors) (s : string) :
  Error_returns e s ↔
  if HasErrors e
  then ∃ keys, keys ≡ₚ (map_to_list (entries e)).*1 ∧
         s = "Validation error on fields: " +:+ Join keys ", "
  else s = "".
Proof.
  unfold Error_returns, Error_of_keys. destruct (HasErrors e) eqn:Hhas.
  - split; intros (keys & Hkeys & ->); exists keys;
      (split; [by apply range_order_Permutation | done]).
  - split; [by intros (keys & _ & ->)|]. intros ->.
    exists []. split; [|done].
    apply HasErrors_false in Hhas. rewrite Hhas. constructor.
Qed.

Lemma occurs_in_app_l (t s before : string) :
  occurs_in t s → occurs_in t (before +:+ s).
Proof.
  intros (b & a & ->). exists (before +:+ b), a. by rewrite Str.app_assoc.
Qed.

Lemma Join_occurs (keys : list string) (sep k : string) :
  k ∈ keys → occurs_in k (Join keys sep).
Proof.
  induction keys as [|x [|y keys] IH].
  - by intros ?%elem_of_nil.
  - intros ->%list_elem_of_singleton. exists "", "". simpl.
    by rewrite Str.app_nil_r.
  - intros [->|Hin]%elem_of_cons.
    + exists "", (sep +:+ Join (y :: keys) sep). by rewrite Str.app_nil_l.
    + change (Join (x :: y :: keys) sep)
        with (x +:+ sep +:+ Join (y :: keys) sep).
      by do 2 apply occurs_in_app_l; apply IH.
Qed.

(** X9: A message returned by [Error] is empty exactly when the mapping of
    the aggregate has no entry, and it contains the name of every field of
    the aggregate. *)
Theorem Error_mentions_every_field (e : ValidationErrors) (s : string)
    (Hs : Error_returns e s) :
  (s = "" ↔ ∀ field, entries e !! field = None) ∧
  ∀ field, is_Some (entries e !! field) → occurs_in field s.
Proof.
  apply Error_returns_keys in Hs. destruct (HasErrors e) eqn:Hhas.
  - destruct Hs as (keys & Hkeys & ->).
    apply HasErrors_true in Hhas. split.
    + split; [done|]. intros Hnone. by apply map_empty in Hnone.
    + intros field Hfield. apply occurs_in_app_l, Join_occurs.
      rewrite Hkeys. by apply elem_of_map_keys.
  - subst s. apply HasErrors_false in Hhas. split.
    + split; [|done]. intros _ field. by rewrite Hhas, lookup_empty.
    + intros field [reasons Hfield]. by rewrite Hhas, lookup_empty in Hfield.
Qed.

Lemma Error_mentions_every_field_witness :
  ("Validation error on fields: email" = "" ↔
   ∀ field,
     entries (mkValidationErrors (Some {["email" := ["required"]]})) !! field
     = None) ∧
  ∀ field,
    is_Some (entries (mkValidationErrors (Some {["email" := ["required"]]}))
             !! field) →
    occurs_in field "Validation error on fields: email".
Proof.
  apply Error_mentions_every_field.
  exists ["email"]. split; [|reflexivity].
  apply range_order_Permutation. by vm_compute.
Defined.

(** X10: With one failing field the message is determined: the prefix followed
    by the name of the field. *)
Theorem Error_single_field (e : ValidationErrors) (field : string)
    (reasons : list string) (s : string)
    (He : entries e = {[field := reasons]}) :
  Error_returns e s ↔ s = "Validation error on fields: " +:+ field.
Proof.
  rewrite Error_returns_keys.
  assert (HasErrors e = true) as ->.
  { apply HasErrors_true. rewrite He. apply insert_non_empty. }
  rewrite He, map_to_list_singleton. simpl. split.
  - by intros (keys & ->%Permutation_singleton_r & ->).
  - intros ->. by exists [field].
Qed.

Lemma Error_single_field_witness :
  Error_returns (NewValidationErrors (Some
      [Validator.mkFieldError "User.email" "required";
       Validator.mkFieldError "User.email" "email"]))
    "Validation error on fields: email" ↔
  "Validation error on fields: email" = "Validation error on fields: " +:+ "email".
Proof. apply (Error_single_field _ "email" ["email"]). reflexivity. Defined.

Lemma length_Join (keys : list string) (sep : string) :
  String.length (Join keys sep) =
  sum_list_with (λ k, String.length k + String.length sep) keys
  - String.length sep.
Proof.
  induction keys as [|x [|y keys] IH]; [done| |].
  - simpl. lia.
  - change (Join (x :: y :: keys) sep)
      with (x +:+ sep +:+ Join (y :: keys) sep).
    rewrite !Str.length_app, IH. simpl. lia.
Qed.

(** X11: The order of iteration changes the order of the names in the message
    and not its length. *)
Theorem Error_length_fixed (e : ValidationErrors) (s1 s2 : string)
    (H1 : Error_returns e s1) (H2 : Error_returns e s2) :
  String.length s1 = String.length s2.
Proof.
  apply Error_returns_keys in H1, H2. destruct (HasErrors e); [|by subst].
  destruct H1 as (keys1 & Hk1 & ->), H2 as (keys2 & Hk2 & ->).
  rewrite !Str.length_app, !length_Join. by rewrite Hk1, Hk2.
Qed.

Lemma Error_length_fixed_witness :
  String.length "Validation error on fields: email, phone" =
  String.length "Validation error on fields: phone, email".
Proof.
  apply (Error_length_fixed (mkValidationErrors
           (Some {["email" := ["required"]; "phone" := ["phone"]]}))).
  - exists ["email"; "phone"]. split; [|reflexivity].
    apply range_order_Permutation. by vm_compute.
  - exists ["phone"; "email"]. split; [|reflexivity].
    apply range_order_Permutation. vm_compute. apply perm_swap.
Defined.

End ErrorFacts.

(** ** [Struct], further *)

Section StructFacts.
Variable Instance_ : Type.
Variable validate_Struct : Instance_ → option Validator.Error.

(** X12: [Struct] tests the error of the validator against nil and not its
    length: for a nil or empty collection inside a non-nil error it returns
    a non-nil error that has no errors and whose message is empty. *)
Theorem Struct_empty_collection (i : Instance_)
    (verrs : Validator.ValidationErrors)
    (Hi : validate_Struct i = Some (Validator.Failures verrs))
    (Hempty : verrs = None ∨ verrs = Some []) :
  ∃ e, Struct Instance_ validate_Struct i = Returns (Some (ValidationErrorsPtr e)) ∧
    HasErrors e = false ∧ Len e = 0 ∧
    ∀ s, Error_returns e s ↔ s = "".
Proof.
  unfold Struct. rewrite Hi. eexists. split; [done|].
  assert (entries (NewValidationErrors verrs) = ∅) as Hnone
    by (by destruct Hempty as [-> | ->]).
  assert (HasErrors (NewValidationErrors verrs) = false) as Hhas
    by (by apply HasErrors_false).
  split_and!; [done | by unfold Len; rewrite Hnone |].
  intros s. by rewrite Error_returns_keys, Hhas.
Qed.

(** X13: The message of the error that [Struct] returns for a collection of
    failures contains the field path of every failure. *)
Theorem Struct_message_mentions_failures (i : Instance_)
    (verrs : list Validator.FieldError)
    (Hi : validate_Struct i = Some (Validator.Failures (Some verrs))) :
  ∃ e, Struct Instance_ validate_Struct i = Returns (Some (ValidationErrorsPtr e)) ∧
    ∀ s err, Error_returns e s → err ∈ verrs → occurs_in (field_path err) s.
Proof.
  unfold Struct. rewrite Hi. eexists. split; [done|].
  intros s err Hs Herr. apply Error_returns_keys in Hs.
  assert (field_path err ∈ dom (merge_in ∅ verrs)) as Hdom.
  { rewrite merge_in_dom, elem_of_list_to_set. by apply list_elem_of_fmap_2. }
  assert (HasErrors (NewValidationErrors (Some verrs)) = true) as Hhas.
  { apply HasErrors_NewValidationErrors. intros ->. by apply elem_of_nil in Herr. }
  rewrite Hhas in Hs. destruct Hs as (keys & Hkeys & ->).
  apply occurs_in_app_l, Join_occurs. rewrite Hkeys.
  apply elem_of_map_keys. by apply elem_of_dom.
Qed.

End StructFacts.

Lemma Struct_empty_collection_witness :
  ∃ e, Struct unit (λ _, Some (Validator.Failures (Some []))) ()
       = Returns (Some (ValidationErrorsPtr e)) ∧
    HasErrors e = false ∧ Len e = 0 ∧
    ∀ s, Error_returns e s ↔ s = "".
Proof.
  apply (Struct_empty_collection unit _ () (Some [])); [reflexivity | by right].
Defined.

Lemma Struct_message_mentions_failures_witness :
  ∃ e, Struct unit (λ _, Some (Validator.Failures (Some
         [Validator.mkFieldError "User.email" "required";
          Validator.mkFieldError "User.phone" "phone"]))) ()
       = Returns (Some (ValidationErrorsPtr e)) ∧
    ∀ s err, Error_returns e s →
      err ∈ [Validator.mkFieldError "User.email" "required";
             Validator.mkFieldError "User.phone" "phone"] →
      occurs_in (field_path err) s.
Proof.
  apply (Struct_message_mentions_failures unit _ ()). reflexivity.
Defined.

(** ** The predicates, further *)

Section PredicateFacts.
Import Regexp RegexpFacts.

Lemma Phone_true (s : string) :
  Phone (Reflect.StringValue s) = true ↔ phone_shape s.
Proof.
  unfold Phone. simpl Reflect.String_. rewrite <- Matches_validPhoneRegex.
  exact (MatchString_anchored (body validPhoneRegex) s).
Qed.

Lemma Coordinates_true (s : string) :
  Coordinates (Reflect.StringValue s) = true ↔ coordinate_pair s.
Proof.
  rewrite Coordinates_MatchString. simpl Reflect.String_.
  rewrite <- Matches_validCoordinateRegex.
  exact (MatchString_anchored (body validCoordinateRegex) s).
Qed.

Lemma count_digits_app (s t : string) :
  count_digits (s +:+ t) = count_digits s + count_digits t.
Proof.
  induction s as [|c s IH]; [done|]. rewrite Str.app_cons. simpl. lia.
Qed.

Lemma count_byte_app (c : ascii) (s t : string) :
  count_byte c (s +:+ t) = count_byte c s + count_byte c t.
Proof.
  induction s as [|d s IH]; [done|]. rewrite Str.app_cons. simpl. lia.
Qed.

Lemma all_bytes_app (P : ascii → bool) (s t : string) :
  all_bytes P (s +:+ t) = all_bytes P s && all_bytes P t.
Proof.
  induction s as [|d s IH]; [done|]. rewrite Str.app_cons. simpl.
  by rewrite IH, andb_assoc.
Qed.

Lemma all_digits_count (s : string) :
  all_digits s = true → count_digits s = String.length s.
Proof.
  induction s as [|c s IH]; [done|]. simpl.
  intros [-> Hs]%andb_true_iff. by rewrite IH.
Qed.

Lemma digits_count (n : nat) (s : string) :
  digits n s → count_digits s = n ∧ String.length s = n.
Proof. intros [Hlen Hall]. by rewrite all_digits_count. Qed.

Lemma opt_mark_count (x : string) :
  opt_mark x → count_digits x = 0 ∧ (String.length x ≤ 3)%nat.
Proof. intros [->|[->|[->| ->]]]; vm_compute; split; lia. Qed.

(** X14: An accepted phone value holds exactly ten decimal digits and is 11 to
    19 bytes long. *)
Theorem Phone_ten_digits (s : string)
    (Hs : Phone (Reflect.StringValue s) = true) :
  count_digits s = 10 ∧ (11 ≤ String.length s ≤ 19)%nat.
Proof.
  apply Phone_true in Hs
    as (open & area & close & mark1 & mid & mark2 & last & -> &
        Hopen & Harea & Hclose & Hmark1 & Hmid & Hmark2 & Hlast).
  apply digits_count in Harea as [Ha1 Ha2], Hmid as [Hm1 Hm2],
    Hlast as [Hl1 Hl2].
  apply opt_mark_count in Hmark1 as [Hk1 Hk2], Hmark2 as [Hk3 Hk4].
  rewrite !count_digits_app, !Str.length_app.
  rewrite Ha1, Ha2, Hm1, Hm2, Hl1, Hl2, Hk1, Hk3.
  destruct Hopen as [-> | ->], Hclose as [-> | ->]; simpl; lia.
Qed.

Lemma Phone_ten_digits_witness :
  count_digits "(555) 123-4567" = 10 ∧
  (11 ≤ String.length "(555) 123-4567" ≤ 19)%nat.
Proof. apply Phone_ten_digits. reflexivity. Defined.

Lemma all_digits_coordinate (s : string) :
  all_digits s = true →
  all_bytes coordinate_byte s = true ∧ count_byte "," s = 0.
Proof.
  induction s as [|c s IH]; [done|]. simpl.
  intros [Hc Hs]%andb_true_iff. destruct (IH Hs) as [-> ->].
  unfold coordinate_byte. rewrite Hc. simpl. split; [done|].
  destruct (Ascii.eqb_spec c ",") as [->|]; [by vm_compute in Hc | done].
Qed.

Lemma signed_decimal_bytes (s : string) :
  signed_decimal s →
  all_bytes coordinate_byte s = true ∧ count_byte "," s = 0.
Proof.
  intros (sign & int & frac & -> & Hsign & [_ Hint] & Hfrac).
  apply all_digits_coordinate in Hint as [Hi1 Hi2].
  rewrite !all_bytes_app, !count_byte_app, Hi1, Hi2.
  assert (all_bytes coordinate_byte sign = true ∧ count_byte "," sign = 0)
    as [-> ->] by (by destruct Hsign as [-> | ->]).
  destruct Hfrac as [->|(f & -> & [_ Hf])]; [done|].
  apply all_digits_coordinate in Hf as [Hf1 Hf2].
  by rewrite all_bytes_app, count_byte_app, Hf1, Hf2.
Qed.

(** X15: An accepted coordinates value is written with decimal digits, hyphens,
    periods and commas only, and holds exactly one comma. *)
Theorem Coordinates_bytes (s : string)
    (Hs : Coordinates (Reflect.StringValue s) = true) :
  all_bytes coordinate_byte s = true ∧ count_byte "," s = 1.
Proof.
  apply Coordinates_true in Hs as (lat & lng & -> & Hlat & Hlng).
  apply signed_decimal_bytes in Hlat as [Ha1 Ha2], Hlng as [Hb1 Hb2].
  rewrite !all_bytes_app, !count_byte_app, Ha1, Ha2, Hb1, Hb2. by split.
Qed.

Lemma Coordinates_bytes_witness :
  all_bytes coordinate_byte "40.7128,-74.0060" = true ∧
  count_byte "," "40.7128,-74.0060" = 1.
Proof. apply Coordinates_bytes. reflexivity. Defined.

Lemma phone_shape_first (c : ascii) (s : string) :
  phone_shape (String c s) → c = "("%char ∨ is_digit c = true.
Proof.
  intros (open & area & close & mark1 & mid & mark2 & last & Hs &
          Hopen & [Hlen Harea] & _).
  destruct Hopen as [-> | ->].
  - destruct area as [|a area]; [discriminate|].
    rewrite Str.app_nil_l, Str.app_cons in Hs. injection Hs as -> _.
    right. simpl in Harea. by apply andb_true_iff in Harea as [? _].
  - rewrite Str.app_cons in Hs. injection Hs as -> _. by left.
Qed.

Lemma coordinate_pair_first (c : ascii) (s : string) :
  coordinate_pair (String c s) → c = "-"%char ∨ is_digit c = true.
Proof.
  intros (lat & lng & Hs & (sign & int & frac & -> & Hsign & [Hne Hint] & _) & _).
  destruct Hsign as [-> | ->].
  - destruct int as [|a int]; [done|].
    rewrite Str.app_nil_l, !Str.app_cons in Hs. injection Hs as -> _.
    right. simpl in Hint. by apply andb_true_iff in Hint as [? _].
  - rewrite !Str.app_cons in Hs. injection Hs as -> _. by left.
Qed.

(** X16: A field that is not of kind String never satisfies the phone or the
    coordinates predicate, whatever its type. *)
Theorem predicates_reject_other_kinds (type_name : string) :
  Phone (Reflect.OtherValue type_name) = false ∧
  Coordinates (Reflect.OtherValue type_name) = false.
Proof.
  split; apply not_true_is_false.
  - intros H.
    apply (Phone_true (Reflect.String_ (Reflect.OtherValue type_name))) in H.
    by apply phone_shape_first in H as [?|?].
  - intros H.
    apply (Coordinates_true (Reflect.String_ (Reflect.OtherValue type_name))) in H.
    by apply coordinate_pair_first in H as [?|?].
Qed.

(** X17: The two parentheses of the area code are optional independently of
    each other: a value with only the opening or only the closing one is
    accepted. *)
Theorem Phone_unbalanced_parentheses (area mid last : string)
    (Harea : digits 3 area) (Hmid : digits 3 mid) (Hlast : digits 4 last) :
  Phone (Reflect.StringValue ("(" +:+ area +:+ " " +:+ mid +:+ last)) = true ∧
  Phone (Reflect.StringValue (area +:+ ")" +:+ " " +:+ mid +:+ last)) = true.
Proof.
  split; apply Phone_true.
  - exists "(", area, "", "", mid, "", last.
    split_and!; try done; first [by left | by right].
  - exists "", area, ")", "", mid, "", last.
    split_and!; try done; first [by left | by right].
Qed.

Lemma Phone_unbalanced_parentheses_witness :
  Phone (Reflect.StringValue ("(" +:+ "555" +:+ " " +:+ "123" +:+ "4567")) = true ∧
  Phone (Reflect.StringValue ("555" +:+ ")" +:+ " " +:+ "123" +:+ "4567")) = true.
Proof. apply Phone_unbalanced_parentheses; by split. Defined.

End PredicateFacts.
